(** * rpmsg_omx: the OMX offloading remote-processor driver

    A shallow embedding of [drivers/rpmsg/rpmsg_omx.c]: the per-connection
    state machine, the inbound dispatcher, the client calls (open, connect,
    read, write, poll, ioctl), the dma-buf registry and the crash path,
    followed by the properties of the connection protocol engine.

    Conventions.  A C [int] return value is a [Z]; errors are negative
    errno values.  A message buffer handed around by pointer ([void *data],
    the [connect_msg] array) is a [list byte] addressed by byte offset; the
    kernel stack that [rpmsg_omx_write] works in is a total byte-addressed
    [memory], since the handle array of a packet is found through an offset
    that the caller chooses.  Counters of type [unsigned int] wrap.  Results
    that the driver obtains from the rest of the kernel (transport sends,
    allocations, sleeps, concurrent callbacks running while a client call
    is blocked) are explicit inputs of the function that consumes them. *)

From Stdlib Require Import ZArith Lia Bool.
From Stdlib.Strings Require Import Byte.
From stdpp Require Import base numbers list option gmap sorting.

Local Open Scope Z_scope.

(** ** Kernel constants *)

(** Modelled from the spec: the errno values live in the kernel's
    [errno.h], which is not among the driver sources; these are the
    generic Linux numbers for the error taxonomy of the driver. *)
Definition EIO : Z := 5.
Definition ENXIO : Z := 6.
Definition EAGAIN : Z := 11.
Definition ENOMEM : Z := 12.
Definition EFAULT : Z := 14.
Definition EBUSY : Z := 16.
Definition EINVAL : Z := 22.
Definition ENOTTY : Z := 25.
Definition EISCONN : Z := 106.
Definition ENOTCONN : Z := 107.
Definition ETIMEDOUT : Z := 110.
Definition ERESTARTSYS : Z := 512.

(** Modelled from the spec: the poll bits and [O_NONBLOCK] come from the
    kernel's [poll.h] and [fcntl.h] (generic values). *)
Definition POLLIN : Z := 0x0001.
Definition POLLOUT : Z := 0x0004.
Definition POLLERR : Z := 0x0008.
Definition POLLRDNORM : Z := 0x0040.
Definition POLLWRNORM : Z := 0x0100.
Definition O_NONBLOCK : Z := 0x800.

(** Modelled from the spec: [include/linux/rpmsg_omx.h] is not among the
    driver sources.  The wire header is {type, flags, length}, three packed
    32-bit words followed by the payload; a connect response is a
    {status, address} pair; a connect request is a fixed 48-byte name; the
    message types and the connection states are the enumerations of that
    header. *)
Definition OMX_CONN_REQ : Z := 0.
Definition OMX_CONN_RSP : Z := 1.
Definition OMX_DISCONNECT : Z := 4.
Definition OMX_RAW_MSG : Z := 5.

Definition sizeof_hdr : Z := 12.       (* sizeof(struct omx_msg_hdr) *)
Definition sizeof_conn_rsp : Z := 8.   (* sizeof(struct omx_conn_rsp) *)
Definition sizeof_conn_req : Z := 48.  (* sizeof(struct omx_conn_req) *)
Definition sizeof_disc_req : Z := 4.   (* sizeof(struct omx_disc_req) *)
Definition offsetof_packet_data : Z := 20. (* offsetof(struct omx_packet, data) *)

Inductive omx_state := OMX_UNCONNECTED | OMX_CONNECTED | OMX_FAIL.

#[global] Instance omx_state_eq_dec : EqDecision omx_state.
Proof. solve_decision. Defined.

(** [enum rpc_omx_map_info_type] *)
Definition RPC_OMX_MAP_INFO_NONE : Z := 0.
Definition RPC_OMX_MAP_INFO_THREE_BUF : Z := 3.

(** ** Machine integers and byte-addressed memory *)

Definition to_u32 (z : Z) : Z := z mod 2 ^ 32.

(** [(int)x] of a 32-bit pattern: two's complement. *)
Definition to_s32 (z : Z) : Z :=
  let u := to_u32 z in if u <? 2 ^ 31 then u else u - 2 ^ 32.

Definition byte_val (b : byte) : Z := Z.of_N (Byte.to_N b).

Definition byte_of_Z (z : Z) : byte :=
  default x00 (Byte.of_N (Z.to_N (z mod 256))).

(** A byte read at offset [off]; bytes outside the modelled extent read as
    zero. *)
Definition load8 (mem : list byte) (off : Z) : byte :=
  if off <? 0 then x00 else default x00 (mem !! Z.to_nat off).

(** Little-endian 32-bit load (the target is little-endian ARM). *)
Definition load32 (mem : list byte) (off : Z) : Z :=
  Z.lor (byte_val (load8 mem off))
    (Z.lor (Z.shiftl (byte_val (load8 mem (off + 1))) 8)
       (Z.lor (Z.shiftl (byte_val (load8 mem (off + 2))) 16)
          (Z.shiftl (byte_val (load8 mem (off + 3))) 24))).

Definition bytes_of_u32 (v : Z) : list byte :=
  [byte_of_Z v; byte_of_Z (Z.shiftr v 8);
   byte_of_Z (Z.shiftr v 16); byte_of_Z (Z.shiftr v 24)].

(** [memcpy(mem + off, src, length src)] into a buffer of fixed extent:
    the part of the copy that falls outside the modelled extent is not
    recorded. *)
Definition store_bytes (mem : list byte) (off : nat) (src : list byte)
  : list byte :=
  take (length mem) (take off mem ++ src ++ drop (off + length src)%nat mem).

(** Little-endian 32-bit store; a store that does not fall inside the
    modelled extent is not recorded. *)
Definition store32 (mem : list byte) (off : Z) (v : Z) : list byte :=
  if (0 <=? off) && (off + 4 <=? Z.of_nat (length mem))
  then store_bytes mem (Z.to_nat off) (bytes_of_u32 v)
  else mem.

(** [n] bytes starting at [off]. *)
Definition read_bytes (mem : list byte) (off n : nat) : list byte :=
  take n (drop off mem ++ replicate n x00).

(** [strlen]: the bytes before the first NUL. *)
Fixpoint cstring (s : list byte) : list byte :=
  match s with
  | [] => []
  | b :: r => if Byte.eqb b x00 then [] else b :: cstring r
  end.

Definition strlen (s : list byte) : Z := Z.of_nat (length (cstring s)).

(** Addressable memory around a base pointer: the byte at every offset,
    negative offsets included.  Every address a call touches is taken to be
    mapped. *)
Definition memory := Z → byte.

Definition mload32 (m : memory) (off : Z) : Z :=
  Z.lor (byte_val (m off))
    (Z.lor (Z.shiftl (byte_val (m (off + 1))) 8)
       (Z.lor (Z.shiftl (byte_val (m (off + 2))) 16)
          (Z.shiftl (byte_val (m (off + 3))) 24))).

(** [memcpy(m + off, src, length src)]. *)
Definition mstore_bytes (m : memory) (off : Z) (src : list byte) : memory :=
  λ o, if off <=? o then default (m o) (src !! Z.to_nat (o - off)) else m o.

Definition mstore32 (m : memory) (off : Z) (v : Z) : memory :=
  mstore_bytes m off (bytes_of_u32 v).

(** The [n] bytes found from [off] on. *)
Definition mread (m : memory) (off : Z) (n : nat) : list byte :=
  (λ i : nat, m (off + Z.of_nat i)) <$> seq 0 n.

(** Results of kernel services that return 0 or a negative errno. *)
Inductive kret := KOk | KErr (e : positive).

Definition kret_val (r : kret) : Z :=
  match r with KOk => 0 | KErr e => - Z.pos e end.

(** ** Data model *)

(** [struct rpmsg_channel]: only the addresses matter here. *)
Record rpmsg_channel := {
  rp_src : Z;
  rp_dst : Z;
}.

(** [struct rpmsg_omx_dma_info], with the device address of the first
    mapped segment ([sg_dma_address(sgl) + sgl->offset]). *)
Record rpmsg_omx_dma_info := {
  dbuf : Z;
  attach : Z;
  sgt : Z;
  sgt_pa : Z;
}.

(** [struct rpmsg_omx_instance].  [queue] holds the payloads of the queued
    skbs, oldest first; [reply_arrived] is the [done] counter of the
    completion; [ept] is the local endpoint address.  The mutex and the
    wait queue carry no data: who runs while a caller sleeps is given by
    the environment of each call. *)
Record rpmsg_omx_instance := {
  queue : list (list byte);
  reply_arrived : Z;
  ept : Z;
  dst : Z;
  state : omx_state;
  dma_idr : gmap Z rpmsg_omx_dma_info;
}.

Definition set_state (s : omx_state) (omx : rpmsg_omx_instance) :=
  {| queue := queue omx; reply_arrived := reply_arrived omx; ept := ept omx;
     dst := dst omx; state := s; dma_idr := dma_idr omx |}.

Definition set_dst (d : Z) (omx : rpmsg_omx_instance) :=
  {| queue := queue omx; reply_arrived := reply_arrived omx; ept := ept omx;
     dst := d; state := state omx; dma_idr := dma_idr omx |}.

Definition set_queue (q : list (list byte)) (omx : rpmsg_omx_instance) :=
  {| queue := q; reply_arrived := reply_arrived omx; ept := ept omx;
     dst := dst omx; state := state omx; dma_idr := dma_idr omx |}.

Definition set_reply_arrived (c : Z) (omx : rpmsg_omx_instance) :=
  {| queue := queue omx; reply_arrived := c; ept := ept omx;
     dst := dst omx; state := state omx; dma_idr := dma_idr omx |}.

Definition set_dma_idr (m : gmap Z rpmsg_omx_dma_info)
    (omx : rpmsg_omx_instance) :=
  {| queue := queue omx; reply_arrived := reply_arrived omx; ept := ept omx;
     dst := dst omx; state := state omx; dma_idr := m |}.

(** [complete] ([done++]) and [complete_all] ([done += UINT_MAX/2]) on the
    [done] counter, an [unsigned int]: both additions wrap. *)
Definition UINT_MAX : Z := 2 ^ 32 - 1.
Definition complete (omx : rpmsg_omx_instance) :=
  set_reply_arrived (to_u32 (reply_arrived omx + 1)) omx.
Definition complete_all (omx : rpmsg_omx_instance) :=
  set_reply_arrived (to_u32 (reply_arrived omx + UINT_MAX / 2)) omx.

Definition skb_queue_empty (q : list (list byte)) : bool :=
  match q with [] => true | _ => false end.

(** A frame handed to [rpmsg_send_offchannel]. *)
Record tx_frame := {
  tx_src : Z;
  tx_dst : Z;
  tx_data : list byte;
}.

(** ** The dispatcher callback *)

(** [rpmsg_omx_cb(rpdev, data, len, priv, src)] with [priv = omx].  [data]
    is the memory at the message pointer and [len] the number of bytes the
    transport received; [alloc_ok] tells whether [alloc_skb] succeeds.
    The comparisons of the length guard are unsigned: [sizeof] has type
    [size_t] and [hdr->len] is a [u32]. *)
Definition rpmsg_omx_cb (omx : rpmsg_omx_instance) (data : list byte)
    (len : Z) (alloc_ok : bool) : rpmsg_omx_instance :=
  let hdr_type := load32 data 0 in
  let hdr_len := load32 data 8 in
  if (to_u32 len <? sizeof_hdr)
     || (hdr_len <? to_u32 (to_u32 len - sizeof_hdr))
  then omx (* "truncated message" *)
  else if hdr_type =? OMX_CONN_RSP then
    if hdr_len <? sizeof_conn_rsp then omx (* "incoming empty response msg" *)
    else
      let rsp_status := load32 data sizeof_hdr in
      let rsp_addr := load32 data (sizeof_hdr + 4) in
      let omx := set_dst rsp_addr omx in
      let omx :=
        if negb (rsp_status =? 0) then set_state OMX_FAIL omx
        else if negb (bool_decide (state omx = OMX_FAIL))
             then set_state OMX_CONNECTED omx
             else omx in
      complete omx
  else if hdr_type =? OMX_RAW_MSG then
    if alloc_ok then
      let skbdata :=
        read_bytes data (Z.to_nat sizeof_hdr) (Z.to_nat hdr_len) in
      set_queue (queue omx ++ [skbdata]) omx
    else omx (* "alloc_skb err" *)
  else omx (* "unexpected msg type" *).

(** ** The crash path *)

(** Body of the [list_for_each_entry] loop of [rpmsg_omx_remove] when the
    remote processor has crashed: force [OMX_FAIL] and release the waiters
    (the endpoint is destroyed; the instance itself survives). *)
Definition omx_crash (omx : rpmsg_omx_instance) : rpmsg_omx_instance :=
  complete_all (set_state OMX_FAIL omx).

(** What the other execution contexts can do to an instance while a client
    call sleeps: deliver a frame or report a crash. *)
Inductive async_event :=
| AsyncCb (data : list byte) (len : Z) (alloc_ok : bool)
| AsyncCrash.

Definition async_step (omx : rpmsg_omx_instance) (ev : async_event) :=
  match ev with
  | AsyncCb data len alloc_ok => rpmsg_omx_cb omx data len alloc_ok
  | AsyncCrash => omx_crash omx
  end.

Definition async_run (omx : rpmsg_omx_instance) (evs : list async_event) :=
  foldl async_step omx evs.

(** ** Readiness *)

(** [rpmsg_omx_poll(filp, wait)]: the event mask ([poll_wait] only
    registers the caller on [readq]). *)
Definition rpmsg_omx_poll (omx : rpmsg_omx_instance) : Z :=
  let mask := 0 in
  let mask :=
    if negb (skb_queue_empty (queue omx))
    then Z.lor mask (Z.lor POLLIN POLLRDNORM) else mask in
  let mask := Z.lor mask (Z.lor POLLOUT POLLWRNORM) in
  if bool_decide (state omx = OMX_FAIL) then POLLERR else mask.

(** ** Transport sends *)

(** [rpmsg_send_offchannel(rpdev, src, dst, data, len)]: the transport's
    verdict [r] is an input; the frame handed over is recorded whatever the
    verdict, so an empty record means that the transport was never
    called. *)
Definition rpmsg_send_offchannel (src dst : Z) (data : list byte) (r : kret)
  : Z * list tx_frame :=
  (kret_val r, [{| tx_src := src; tx_dst := dst; tx_data := data |}]).

(** ** connect *)

(** Environment of one [rpmsg_omx_connect] call: the transport's verdict on
    the request, what the dispatcher and the crash path do to the instance
    while the caller sleeps on [reply_arrived], and, should the completion
    still be pending after that, whether a signal ends the sleep early;
    [ce_left] is the number of jiffies left when the completion fires.
    [ce_window] is what the other contexts do between the return of the
    wait and the moment the caller holds the instance lock again: nothing
    keeps a response or a crash from landing there. *)
Record connect_env := {
  ce_send : kret;
  ce_during : list async_event;
  ce_left : positive;
  ce_signal : bool;
  ce_window : list async_event;
}.

(** Modelled from the spec: [wait_for_completion_interruptible_timeout] is
    kernel code outside the driver.  It consumes one [done] token and
    returns the (positive) time left when the completion fired, returns
    [-ERESTARTSYS] when a signal interrupts the sleep, and returns 0 when
    the timeout elapses first. *)
Definition wait_for_completion_interruptible_timeout
    (omx : rpmsg_omx_instance) (left : positive) (signal : bool)
  : Z * rpmsg_omx_instance :=
  if 0 <? reply_arrived omx
  then (Z.pos left, set_reply_arrived (reply_arrived omx - 1) omx)
  else if signal then (- ERESTARTSYS, omx)
  else (0, omx).

(** The [connect_msg] buffer: a zeroed header-plus-name array, the header
    fields, then [strcpy(payload->name, omxname)]. *)
Definition connect_msg (omxname : list byte) : list byte :=
  let msg := replicate (Z.to_nat (sizeof_hdr + sizeof_conn_req)) x00 in
  let msg := store32 msg 0 OMX_CONN_REQ in
  let msg := store32 msg 4 0 in
  let msg := store32 msg 8 (strlen omxname + 1) in
  store_bytes msg (Z.to_nat sizeof_hdr) (cstring omxname ++ [x00]).

(** [rpmsg_omx_connect(omx, omxname)]; [rpdev] is the channel the service
    is bound to.  Returns the C return value, the instance afterwards and
    the frames handed to the transport. *)
Definition rpmsg_omx_connect (rpdev : rpmsg_channel)
    (omx : rpmsg_omx_instance) (omxname : list byte) (env : connect_env)
  : Z * rpmsg_omx_instance * list tx_frame :=
  if bool_decide (state omx = OMX_CONNECTED) then (- EISCONN, omx, [])
  else
    let '(ret, sent) :=
      if bool_decide (state omx = OMX_FAIL) then (- ENXIO, [])
      else rpmsg_send_offchannel (ept omx) (rp_dst rpdev)
             (connect_msg omxname) (ce_send env) in
    if negb (ret =? 0) then (ret, omx, sent)
    else
      let omx := async_run omx (ce_during env) in
      let '(ret, omx) :=
        wait_for_completion_interruptible_timeout omx
          (ce_left env) (ce_signal env) in
      let omx := async_run omx (ce_window env) in
      let ret :=
        if bool_decide (state omx = OMX_FAIL) then - ENXIO
        else if bool_decide (state omx = OMX_UNCONNECTED) then
          if negb (ret =? 0) then ret (* "premature wakeup" *)
          else - ETIMEDOUT
        else ret in
      (ret, omx, sent).

(** ** read *)

(** Environment of one [rpmsg_omx_read] call: what the other contexts do
    while the reader sleeps on [readq], whether a signal is delivered once
    they are done, and whether [copy_to_user] succeeds. *)
Record read_env := {
  re_during : list async_event;
  re_signal : bool;
  re_copy_ok : bool;
}.

(** Modelled from the spec: [wait_event_interruptible] is a kernel macro.
    The condition is tested before sleeping and after every wake-up; the
    sleep ends with 0 once it holds and with [-ERESTARTSYS] on a signal.
    The result is [None] when the reader is still asleep after the
    environment has delivered all it has. *)
Fixpoint wait_event_interruptible (omx : rpmsg_omx_instance)
    (during : list async_event) (signal : bool)
  : option Z * rpmsg_omx_instance :=
  if negb (skb_queue_empty (queue omx)) || bool_decide (state omx = OMX_FAIL)
  then (Some 0, omx)
  else match during with
       | ev :: rest => wait_event_interruptible (async_step omx ev) rest signal
       | [] => (if signal then Some (- ERESTARTSYS) else None, omx)
       end.

(** The tail of [rpmsg_omx_read], from the [OMX_FAIL] test on. *)
Definition read_dequeue (omx : rpmsg_omx_instance) (len : Z) (copy_ok : bool)
  : option Z * rpmsg_omx_instance * list byte :=
  if bool_decide (state omx = OMX_FAIL) then (Some (- ENXIO), omx, [])
  else match queue omx with
       | [] => (Some (- EIO), omx, []) (* "err is rmpsg_omx racy ?" *)
       | skb :: rest =>
           let use := to_s32 (Z.min (to_u32 len) (Z.of_nat (length skb))) in
           let omx := set_queue rest omx in
           if copy_ok then (Some use, omx, take (Z.to_nat use) skb)
           else (Some (- EFAULT), omx, [])
       end.

(** [rpmsg_omx_read(filp, buf, len, offp)]: the return value ([None] when
    the call never returns), the instance afterwards and the bytes copied
    to the caller's buffer. *)
Definition rpmsg_omx_read (omx : rpmsg_omx_instance) (f_flags : Z) (len : Z)
    (env : read_env) : option Z * rpmsg_omx_instance * list byte :=
  if bool_decide (state omx = OMX_UNCONNECTED)
  then (Some (- ENOTCONN), omx, [])
  else if skb_queue_empty (queue omx) then
    if negb (Z.land f_flags O_NONBLOCK =? 0) then (Some (- EAGAIN), omx, [])
    else match wait_event_interruptible omx (re_during env) (re_signal env) with
         | (None, omx) => (None, omx, [])
         | (Some ret, omx) =>
             if negb (ret =? 0) then (Some (- ERESTARTSYS), omx, [])
             else read_dequeue omx len (re_copy_ok env)
         end
  else read_dequeue omx len (re_copy_ok env).

(** ** Kernel resources *)

(** What the driver holds on the rest of the kernel on account of its
    dma-buf handling: a [kmalloc]ed descriptor, a dma-buf reference, an
    attachment and a mapping. *)
Inductive resource :=
| ResDmaInfo
| ResBufRef (dbuf : Z)
| ResAttach (dbuf attach : Z)
| ResMap (attach sgt : Z).

#[global] Instance resource_eq_dec : EqDecision resource.
Proof. solve_decision. Defined.

(** Giving a resource back removes one instance of it from those held. *)
Fixpoint release (r : resource) (held : list resource) : list resource :=
  match held with
  | [] => []
  | r' :: rest => if bool_decide (r = r') then rest else r' :: release r rest
  end.

(** Modelled from the spec: [dma_buf_get(fd)] belongs to the dma-buf
    framework.  It returns the dma-buf that the descriptor [fd] of the
    calling process names, with one more reference taken on it, or an error
    pointer ([inl e] stands for [ERR_PTR(-e)]).  An [fd_table] gives that
    outcome for every descriptor. *)
Definition fd_table := Z → positive + Z.

(** The reference that a [dma_buf_get] leaves with its caller. *)
Definition dma_buf_ref (got : positive + Z) : list resource :=
  match got with
  | inr dbuf => [ResBufRef dbuf]
  | inl _ => []
  end.

(** ** Address translation and the embedded-handle rewrite *)

(** Modelled from the spec: [rproc_pa_to_da] belongs to the
    remote-processor management layer.  It converts a physical address
    into the remote core's address space or fails with a negative errno;
    [inl e] stands for the return value [-e]. *)
Definition translator := Z → positive + Z.

(** [_rpmsg_pa_to_da(omx, pa, da)]: the return value and, on success, the
    value stored through [da] (truncated to 32 bits). *)
Definition _rpmsg_pa_to_da (omx : rpmsg_omx_instance) (pa : Z)
    (rproc_pa_to_da : translator) : Z * Z :=
  if bool_decide (state omx = OMX_FAIL) then (- ENXIO, 0)
  else match rproc_pa_to_da (to_u32 pa) with
       | inl e => (- Z.pos e, 0)
       | inr temp_da => (0, to_u32 temp_da)
       end.

(** [rpmsg_omx_dma_find(omx, fd, &pa)]: the registry entry of [fd] with the
    device-visible base of its first segment, and the reference taken by
    the [dma_buf_get(fd)] at its head, which the function uses for a debug
    message only and never puts. *)
Definition rpmsg_omx_dma_find (omx : rpmsg_omx_instance) (fd : Z)
    (dma_buf_get : fd_table)
  : option (rpmsg_omx_dma_info * Z) * list resource :=
  let dbuf := dma_buf_get fd in
  (match dma_idr omx !! fd with
   | Some dma => Some (dma, sgt_pa dma)
   | None => None
   end, dma_buf_ref dbuf).

(** [_rpmsg_omx_buffer_get(omx, buffer, da)] with
    [CONFIG_DMA_SHARED_BUFFER]; [buffer] is the 32-bit word found in the
    message, read as an [int] file descriptor.  Returns the return value,
    the value stored through [da] and the references left behind. *)
Definition _rpmsg_omx_buffer_get (omx : rpmsg_omx_instance) (buffer : Z)
    (rproc_pa_to_da : translator) (dma_buf_get : fd_table)
  : Z * Z * list resource :=
  let fd := to_s32 buffer in
  match rpmsg_omx_dma_find omx fd dma_buf_get with
  | (Some (_, pa), refs) =>
      let '(ret, da) := _rpmsg_pa_to_da omx pa rproc_pa_to_da in
      (ret, da, refs)
  | (None, refs) => (- EIO, 0, refs) (* "buffer lookup failed" *)
  end.

(** The [while (maptype--)] loop of [_rpmsg_omx_map_buf]: [buffer] is the
    address of the current handle slot.  The references left behind are
    listed latest first. *)
Fixpoint map_buf_loop (maptype : nat) (omx : rpmsg_omx_instance)
    (rproc_pa_to_da : translator) (dma_buf_get : fd_table) (mem : memory)
    (buffer : Z) : Z * memory * list resource :=
  match maptype with
  | O => (0, mem, [])
  | S maptype' =>
      let '(ret, da, refs) :=
        _rpmsg_omx_buffer_get omx (mload32 mem buffer) rproc_pa_to_da
          dma_buf_get in
      if negb (ret =? 0) then (ret, mem, refs)
      else
        let '(ret, mem, refs') :=
          map_buf_loop maptype' omx rproc_pa_to_da dma_buf_get
            (mstore32 mem buffer da) (buffer + 4) in
        (ret, mem, refs' ++ refs)
  end.

(** [_rpmsg_omx_map_buf(omx, packet)]: [packet] is the address of the
    [struct omx_packet].  Returns the C return value, the memory with the
    handles rewritten so far and the references left behind.  [maptype]
    and [offset] are read once, before the loop; the handle array is
    wherever [offset] says, inside the packet or not. *)
Definition _rpmsg_omx_map_buf (omx : rpmsg_omx_instance)
    (rproc_pa_to_da : translator) (dma_buf_get : fd_table) (mem : memory)
    (packet : Z) : Z * memory * list resource :=
  let data := packet + offsetof_packet_data in
  let maptype := mload32 mem data in
  let offset := to_s32 (mload32 mem (data + 4)) in
  let buffer := data + offset in
  if (maptype <? RPC_OMX_MAP_INFO_NONE)
     || (maptype >? RPC_OMX_MAP_INFO_THREE_BUF)
  then (- EINVAL, mem, [])
  else map_buf_loop (Z.to_nat maptype) omx rproc_pa_to_da dma_buf_get mem
         buffer.

(** ** write *)

(** [copy_from_user(to, from, n)]: [from] is the user memory readable at the
    source pointer; the copy fails when fewer than [n] bytes are. *)
Definition copy_from_user (from : list byte) (n : Z) : option (list byte) :=
  if n <=? Z.of_nat (length from) then Some (take (Z.to_nat n) from)
  else None.

(** Environment of one [rpmsg_omx_write] call: the kernel stack as the call
    finds it, addressed from the start of [kbuf] (the uninitialised [kbuf]
    itself at offsets 0 to 511, the rest of the stack around it), the
    address translator, the descriptor table of the caller and the
    transport's verdict on the frame.  The scalar locals of the call are
    taken to live in registers. *)
Record write_env := {
  we_stack : memory;
  we_pa_to_da : translator;
  we_dma_buf_get : fd_table;
  we_send : kret;
}.

Definition sizeof_kbuf : Z := 512.

(** The stack once the caller's bytes have been copied into [kbuf] behind
    the header slot. *)
Definition write_kbuf (env : write_env) (bytes : list byte) : memory :=
  mstore_bytes (we_stack env) sizeof_hdr bytes.

(** [rpmsg_omx_write(filp, ubuf, len, offp)]: the return value, the frames
    handed to the transport and the dma-buf references left behind (the
    instance is not modified). *)
Definition rpmsg_omx_write (omx : rpmsg_omx_instance) (ubuf : list byte)
    (len : Z) (env : write_env) : Z * list tx_frame * list resource :=
  if bool_decide (state omx = OMX_UNCONNECTED) then (- ENOTCONN, [], [])
  else
    let use := Z.min (sizeof_kbuf - sizeof_hdr) (to_u32 len) in
    match copy_from_user ubuf use with
    | None => (- EFAULT, [], [])
    | Some bytes =>
        let kbuf := write_kbuf env bytes in
        let '(ret, kbuf, refs) :=
          _rpmsg_omx_map_buf omx (we_pa_to_da env) (we_dma_buf_get env) kbuf
            sizeof_hdr in
        if ret <? 0 then (ret, [], refs)
        else
          let kbuf := mstore32 kbuf 0 OMX_RAW_MSG in
          let kbuf := mstore32 kbuf 4 0 in
          let kbuf := mstore32 kbuf 8 use in
          let '(ret, sent) :=
            if bool_decide (state omx = OMX_FAIL) then (- ENXIO, [])
            else rpmsg_send_offchannel (ept omx) (dst omx)
                   (mread kbuf 0 (Z.to_nat (use + sizeof_hdr))) (we_send env) in
          if negb (ret =? 0) then (ret, sent, refs) else (use, sent, refs)
    end.

(** ** The dma-buf registry *)

(** Modelled from the spec: the idr allocator is kernel library code.
    [idr_get_new_above(idr, ptr, start, &id)] binds [ptr] to the smallest
    unused id that is at least [start]. *)
Fixpoint idr_first_free (fuel : nat) (idr : gmap Z rpmsg_omx_dma_info)
    (k : Z) : Z :=
  match fuel with
  | O => k
  | S fuel' =>
      match idr !! k with
      | None => k
      | Some _ => idr_first_free fuel' idr (k + 1)
      end
  end.

Definition idr_get_new_above (idr : gmap Z rpmsg_omx_dma_info)
    (ptr : rpmsg_omx_dma_info) (start : Z)
  : gmap Z rpmsg_omx_dma_info * Z :=
  let id := idr_first_free (size idr) idr start in
  (<[id := ptr]> idr, id).

(** Environment of one [rpmsg_omx_pin_buffer] call: the outcome of each
    kernel service on the way ([inl e] is the error pointer or return
    value [-e]). *)
Record pin_env := {
  pe_kmalloc : bool;
  pe_dma_buf_get : positive + Z;
  pe_dma_buf_attach : positive + Z;
  pe_dma_buf_map : positive + Z * Z; (* the sg table and its base address *)
  pe_idr_pre_get : bool;
  pe_idr_get_new : kret;
}.

(** The error labels of [rpmsg_omx_pin_buffer], each falling through to
    the next. *)
Definition pin_err (held : list resource) : list resource :=
  release ResDmaInfo held. (* kfree(dma) *)

Definition pin_err_buf_put (dma : rpmsg_omx_dma_info)
    (held : list resource) : list resource :=
  pin_err (release (ResBufRef (dbuf dma)) held).

Definition pin_err_detach (dma : rpmsg_omx_dma_info)
    (held : list resource) : list resource :=
  pin_err_buf_put dma (release (ResAttach (dbuf dma) (attach dma)) held).

Definition pin_err_unmap (dma : rpmsg_omx_dma_info)
    (held : list resource) : list resource :=
  pin_err_detach dma (release (ResMap (attach dma) (sgt dma)) held).

(** [rpmsg_omx_pin_buffer(omx, fd)]: the return value, the instance and the
    held resources afterwards. *)
Definition rpmsg_omx_pin_buffer (omx : rpmsg_omx_instance) (fd : Z)
    (held : list resource) (env : pin_env)
  : Z * rpmsg_omx_instance * list resource :=
  if negb (pe_kmalloc env) then (- ENOMEM, omx, held)
  else
    let held := ResDmaInfo :: held in
    match pe_dma_buf_get env with
    | inl e => (- Z.pos e, omx, pin_err held)
    | inr dbuf =>
      let held := ResBufRef dbuf :: held in
      match pe_dma_buf_attach env with
      | inl e =>
          let dma := {| dbuf := dbuf; attach := 0; sgt := 0; sgt_pa := 0 |} in
          (- Z.pos e, omx, pin_err_buf_put dma held)
      | inr att =>
        let held := ResAttach dbuf att :: held in
        match pe_dma_buf_map env with
        | inl e =>
            let dma :=
              {| dbuf := dbuf; attach := att; sgt := 0; sgt_pa := 0 |} in
            (- Z.pos e, omx, pin_err_detach dma held)
        | inr (sg, pa) =>
          let held := ResMap att sg :: held in
          let dma :=
            {| dbuf := dbuf; attach := att; sgt := sg; sgt_pa := pa |} in
          if negb (pe_idr_pre_get env)
          then (- ENOMEM, omx, pin_err_unmap dma held)
          else
            match pe_idr_get_new env with
            | KErr e => (- Z.pos e, omx, pin_err_unmap dma held)
            | KOk =>
              let '(idr, id) := idr_get_new_above (dma_idr omx) dma fd in
              let omx := set_dma_idr idr omx in
              if negb (fd =? id) then
                (* err_rem_idr *)
                let omx := set_dma_idr (delete id (dma_idr omx)) omx in
                (- EINVAL, omx, pin_err_unmap dma held)
              else (0, omx, held)
            end
        end
      end
    end.

(** [rpmsg_omx_remove_dma_buffer(omx, dma)]. *)
Definition rpmsg_omx_remove_dma_buffer (dma : rpmsg_omx_dma_info)
    (held : list resource) : Z * list resource :=
  (0, release ResDmaInfo
        (release (ResBufRef (dbuf dma))
           (release (ResAttach (dbuf dma) (attach dma))
              (release (ResMap (attach dma) (sgt dma)) held)))).

(** [rpmsg_omx_unpin_buffer(omx, fd)]: the reference that the lookup
    leaves behind joins the resources held. *)
Definition rpmsg_omx_unpin_buffer (omx : rpmsg_omx_instance) (fd : Z)
    (held : list resource) (dma_buf_get : fd_table)
  : Z * rpmsg_omx_instance * list resource :=
  match rpmsg_omx_dma_find omx fd dma_buf_get with
  | (None, refs) => (- EINVAL, omx, refs ++ held)
  | (Some (dma, _), refs) =>
      let held := refs ++ held in
      let omx := set_dma_idr (delete fd (dma_idr omx)) omx in
      let '(ret, held) := rpmsg_omx_remove_dma_buffer dma held in
      (ret, omx, held)
  end.

(** ** Control operations *)

(** The [cmd] word of an ioctl, decoded: the three commands of the driver
    (which carry [OMX_IOC_MAGIC] and a number within [OMX_IOC_MAXNR]), a
    command that fails one of the two [-ENOTTY] guards, and a command that
    passes both but matches no [case]. *)
Inductive ioctl_cmd :=
| OMX_IOCCONNECT
| OMX_IOCBUFREGISTER
| OMX_IOCBUFUNREGISTER
| IOC_FOREIGN
| IOC_UNHANDLED.

(** Environment of one [rpmsg_omx_ioctl] call: the user memory readable at
    [arg] (used by the connect command), the environments of the calls it
    may delegate to and the descriptor table of the caller. *)
Record ioctl_env := {
  ie_user : list byte;
  ie_connect : connect_env;
  ie_pin : pin_env;
  ie_dma_buf_get : fd_table;
}.

Definition sizeof_buf : Z := 48. (* char buf[48] *)

(** [rpmsg_omx_ioctl(filp, cmd, arg)]: the return value, the instance, the
    frames sent and the held resources afterwards. *)
Definition rpmsg_omx_ioctl (rpdev : rpmsg_channel) (omx : rpmsg_omx_instance)
    (cmd : ioctl_cmd) (arg : Z) (held : list resource) (env : ioctl_env)
  : Z * rpmsg_omx_instance * list tx_frame * list resource :=
  match cmd with
  | IOC_FOREIGN => (- ENOTTY, omx, [], held)
  | OMX_IOCCONNECT =>
      match copy_from_user (ie_user env) sizeof_buf with
      | None => (- EFAULT, omx, [], held)
      | Some buf =>
          (* make sure user input is null terminated *)
          let buf := <[Z.to_nat (sizeof_buf - 1) := x00]> buf in
          let '(ret, omx, sent) :=
            rpmsg_omx_connect rpdev omx buf (ie_connect env) in
          (ret, omx, sent, held)
      end
  | OMX_IOCBUFREGISTER =>
      let '(ret, omx, held) :=
        rpmsg_omx_pin_buffer omx (to_s32 arg) held (ie_pin env) in
      (ret, omx, [], held)
  | OMX_IOCBUFUNREGISTER =>
      let '(ret, omx, held) :=
        rpmsg_omx_unpin_buffer omx (to_s32 arg) held (ie_dma_buf_get env) in
      (ret, omx, [], held)
  | IOC_UNHANDLED => (0, omx, [], held) (* "unhandled ioctl cmd" *)
  end.

(** ** The service: open and removal *)

(** [struct rpmsg_omx_service]: the bound channel (absent after a crash),
    the minor number, the live instances (the C field [list], newest
    first) and the [done] counter of the link-ready completion. *)
Record rpmsg_omx_service := {
  rpdev : option rpmsg_channel;
  minor : Z;
  omx_list : list rpmsg_omx_instance;
  comp : Z;
}.

(** One sleep of [rpmsg_omx_open] on the link-ready completion: it is
    interrupted, or the caller wakes up and finds the given channel
    binding once it holds the service lock again. *)
Inductive open_wait :=
| OpenInterrupted
| OpenWoken (rp : option rpmsg_channel).

(** Environment of one [rpmsg_omx_open] call. *)
Record open_env := {
  oe_kzalloc : bool;
  oe_waits : list open_wait;
  oe_create_ept : option Z; (* the fresh local address, or failure *)
}.

(** The [while (!omxserv->rpdev)] loop: the channel finally seen, or the
    error of an interrupted sleep; [None] when the caller is still asleep
    after the last wake-up the environment provides. *)
Fixpoint open_wait_loop (rp : option rpmsg_channel) (waits : list open_wait)
  : option (Z + rpmsg_channel) :=
  match rp with
  | Some ch => Some (inr ch)
  | None =>
      match waits with
      | [] => None
      | OpenInterrupted :: _ => Some (inl (- ERESTARTSYS))
      | OpenWoken rp' :: rest => open_wait_loop rp' rest
      end
  end.

Definition omx_new (addr : Z) : rpmsg_omx_instance :=
  {| queue := []; reply_arrived := 0; ept := addr; dst := 0;
     state := OMX_UNCONNECTED; dma_idr := ∅ |}.

(** [rpmsg_omx_open(inode, filp)]: the return value and the service
    afterwards (on success the new instance heads [omx_list]); [None] when
    the call never returns. *)
Definition rpmsg_omx_open (omxserv : rpmsg_omx_service) (f_flags : Z)
    (env : open_env) : option (Z * rpmsg_omx_service) :=
  if negb (oe_kzalloc env) then Some (- ENOMEM, omxserv)
  else if bool_decide (rpdev omxserv = None)
          && negb (Z.land f_flags O_NONBLOCK =? 0)
  then Some (- EBUSY, omxserv)
  else
    match open_wait_loop (rpdev omxserv) (oe_waits env) with
    | None => None
    | Some (inl ret) => Some (ret, omxserv)
    | Some (inr ch) =>
        match oe_create_ept env with
        | None => Some (- ENOMEM, omxserv) (* "create ept failed" *)
        | Some addr =>
            Some (0, {| rpdev := Some ch; minor := minor omxserv;
                        omx_list := omx_new addr :: omx_list omxserv;
                        comp := comp omxserv |})
        end
    end.

(** [rpmsg_omx_remove(rpdev)].  [crashed] is [rproc->state ==
    RPROC_CRASHED].  A clean removal frees the service ([None]); a crash
    keeps it, fails every live instance and clears the channel. *)
Definition rpmsg_omx_remove (omxserv : rpmsg_omx_service) (crashed : bool)
  : option rpmsg_omx_service :=
  if negb crashed then None
  else Some {| rpdev := None; minor := minor omxserv;
               omx_list := omx_crash <$> omx_list omxserv;
               comp := 0 |}.

(** ** Histories of one connection *)

(** Everything that can happen to an instance: the asynchronous events, and
    the client calls with their arguments and environments. *)
Inductive event :=
| EvAsync (a : async_event)
| EvConnect (rp : rpmsg_channel) (omxname : list byte) (env : connect_env)
| EvIoctl (rp : rpmsg_channel) (cmd : ioctl_cmd) (arg : Z)
    (held : list resource) (env : ioctl_env)
| EvRead (f_flags len : Z) (env : read_env)
| EvWrite (ubuf : list byte) (len : Z) (env : write_env)
| EvPoll.

Definition step (omx : rpmsg_omx_instance) (ev : event)
  : rpmsg_omx_instance :=
  match ev with
  | EvAsync a => async_step omx a
  | EvConnect rp omxname env => (rpmsg_omx_connect rp omx omxname env).1.2
  | EvIoctl rp cmd arg held env =>
      (rpmsg_omx_ioctl rp omx cmd arg held env).1.1.2
  | EvRead f_flags len env => (rpmsg_omx_read omx f_flags len env).1.2
  | EvWrite _ _ _ => omx
  | EvPoll => omx
  end.

Definition run (omx : rpmsg_omx_instance) (evs : list event)
  : rpmsg_omx_instance :=
  foldl step omx evs.

(** The transitions the state field may make in one step. *)
Definition allowed (s s' : omx_state) : Prop :=
  s' = s ∨ (s = OMX_UNCONNECTED ∧ s' = OMX_CONNECTED) ∨ s' = OMX_FAIL.

(** An asynchronous event that is neither a frame typed as a connect
    response nor a crash. *)
Definition quiet (ev : async_event) : bool :=
  match ev with
  | AsyncCb data _ _ => negb (load32 data 0 =? OMX_CONN_RSP)
  | AsyncCrash => false
  end.

(** The completion is pending whenever the connection is Unconnected. *)
Definition completion_pending (omx : rpmsg_omx_instance) : Prop :=
  state omx = OMX_UNCONNECTED → reply_arrived omx = 0.

(** ** Sample data *)

Definition omx_sample (s : omx_state) (q : list (list byte))
  : rpmsg_omx_instance :=
  {| queue := q; reply_arrived := 0; ept := 1024; dst := 7; state := s;
     dma_idr := ∅ |}.

Definition channel_sample : rpmsg_channel := {| rp_src := 1024; rp_dst := 60 |}.

(** A frame: header {type, flags = 0, len} followed by [payload]. *)
Definition frame (type hdr_len : Z) (payload : list byte) : list byte :=
  bytes_of_u32 type ++ bytes_of_u32 0 ++ bytes_of_u32 hdr_len ++ payload.

(** A raw-data frame of 16 received bytes whose header declares 100. *)
Definition overlong_frame : list byte :=
  frame OMX_RAW_MSG 100 [xde; xad; xbe; xef].

(** A well-formed one-byte raw-data frame (13 bytes on the wire). *)
Definition raw_frame : list byte := frame OMX_RAW_MSG 1 [x2a].

(** A connect response {status, addr} (20 bytes on the wire). *)
Definition conn_rsp_frame (status addr : Z) : list byte :=
  frame OMX_CONN_RSP 8 (bytes_of_u32 status ++ bytes_of_u32 addr).

Definition connect_env_sample (during : list async_event) : connect_env :=
  {| ce_send := KOk; ce_during := during; ce_left := 1200%positive;
     ce_signal := false; ce_window := [] |}.

Definition read_env_sample : read_env :=
  {| re_during := []; re_signal := false; re_copy_ok := true |}.

Definition service_sample (rp : option rpmsg_channel) : rpmsg_omx_service :=
  {| rpdev := rp; minor := 0; omx_list := []; comp := 0 |}.

Definition open_env_sample : open_env :=
  {| oe_kzalloc := true; oe_waits := []; oe_create_ept := Some 1024 |}.

(** A caller whose descriptor 5 names the dma-buf 1 and who has no other
    dma-buf descriptor ([EBADF] otherwise). *)
Definition fd_table_sample : fd_table :=
  λ fd, if fd =? 5 then inr 1 else inl 9%positive.

Definition pin_env_sample : pin_env :=
  {| pe_kmalloc := true; pe_dma_buf_get := inr 1; pe_dma_buf_attach := inr 2;
     pe_dma_buf_map := inr (3, 4096); pe_idr_pre_get := true;
     pe_idr_get_new := KOk |}.

(** A connect ioctl whose user buffer holds 64 letters and no NUL, answered
    by a success response offering address 7. *)
Definition ioctl_env_long_name : ioctl_env :=
  {| ie_user := replicate 64 x61;
     ie_connect :=
       connect_env_sample [AsyncCb (conn_rsp_frame 0 7) 20 true];
     ie_pin := pin_env_sample; ie_dma_buf_get := fd_table_sample |}.


(** A write payload whose handle array is announced 568 bytes behind the
    packet data, that is at offset 600 from the start of [kbuf], behind
    its end. *)
Definition payload_outside : list byte :=
  replicate 20 x00 ++ bytes_of_u32 1 ++ bytes_of_u32 568.

(** A stack that holds the word 9 at offset 600 and zeros elsewhere. *)
Definition write_env_stack : write_env :=
  {| we_stack := mstore32 (λ _, x00) 600 9;
     we_pa_to_da := λ pa, inr (pa + 0x10000);
     we_dma_buf_get := fd_table_sample; we_send := KOk |}.

(** A connected instance on which the handle 0 is pinned. *)
Definition omx_pinned0 : rpmsg_omx_instance :=
  (rpmsg_omx_pin_buffer (omx_sample OMX_CONNECTED []) 0 [] pin_env_sample).1.2.

Definition write_env_sample : write_env :=
  {| we_stack := λ _, x00; we_pa_to_da := λ pa, inr (pa + 0x10000);
     we_dma_buf_get := fd_table_sample; we_send := KOk |}.

(** The instance and the held resources after a first, successful pin of
    handle 5. *)
Definition omx_pinned : rpmsg_omx_instance :=
  (rpmsg_omx_pin_buffer (omx_sample OMX_CONNECTED []) 5 [] pin_env_sample).1.2.

Definition held_pinned : list resource :=
  (rpmsg_omx_pin_buffer (omx_sample OMX_CONNECTED []) 5 [] pin_env_sample).2.

(** The name "svc-a", NUL-terminated. *)
Definition svc_a : list byte := [x73; x76; x63; x2d; x61; x00].

Definition ten_bytes : list byte :=
  [x00; x01; x02; x03; x04; x05; x06; x07; x08; x09].

(** A freshly opened instance connected to "svc-a" by a success response
    offering address 7. *)
Definition omx_connected : rpmsg_omx_instance :=
  (rpmsg_omx_connect channel_sample (omx_new 1024) svc_a
     (connect_env_sample [AsyncCb (conn_rsp_frame 0 7) 20 true])).1.2.

(** ** release and the registry teardown *)

#[global] Instance byte_eq_dec : EqDecision byte := Byte.byte_eq_dec.

(** The ids of an idr in the order [idr_for_each] visits them. *)
Definition idr_ids {V} (idr : gmap Z V) : list Z :=
  merge_sort Z.le (elements (dom idr)).

(** Modelled from the spec: [idr_for_each(idr, fn, data)] is kernel library
    code.  It calls [fn] on every entry in ascending id order and stops at
    the first call that returns non-zero, which it returns; [None] stands
    for a zero return of [fn]. *)
Fixpoint idr_for_each_ids {V S R} (fn : Z → V → S → option R * S)
    (idr : gmap Z V) (ids : list Z) (s : S) : option R * S :=
  match ids with
  | [] => (None, s)
  | id :: rest =>
      match idr !! id with
      | None => idr_for_each_ids fn idr rest s
      | Some node =>
          match fn id node s with
          | (Some r, s) => (Some r, s)
          | (None, s) => idr_for_each_ids fn idr rest s
          end
      end
  end.

Definition idr_for_each {V S R} (fn : Z → V → S → option R * S)
    (idr : gmap Z V) (s : S) : option R * S :=
  idr_for_each_ids fn idr (idr_ids idr) s.

(** [rpmsg_omx_idr_unpin_buffer(id, node, omx)]: always returns 0. *)
Definition rpmsg_omx_idr_unpin_buffer (id : Z) (node : rpmsg_omx_dma_info)
    (held : list resource) : option Z * list resource :=
  let '(ret, held) := rpmsg_omx_remove_dma_buffer node held in
  (if ret =? 0 then None else Some ret, held).

(** Environment of one [rpmsg_omx_release] call: the bytes found in the
    uninitialised on-stack [kbuf], what the other contexts do between the
    unlocked test of the state and the locked one, and the transport's
    verdict on the disconnect frame. *)
Record release_env := {
  rl_stack : list byte;
  rl_between : list async_event;
  rl_send : kret;
}.

(** The first [use] bytes of [kbuf] once the disconnect header and the
    [struct omx_disc_req] have been written into it. *)
Definition disconnect_msg (stack : list byte) (addr : Z) : list byte :=
  let kbuf := read_bytes stack 0 (Z.to_nat sizeof_kbuf) in
  let kbuf := store32 kbuf 0 OMX_DISCONNECT in
  let kbuf := store32 kbuf 4 0 in
  let kbuf := store32 kbuf 8 sizeof_disc_req in
  let kbuf := store32 kbuf sizeof_hdr addr in
  take (Z.to_nat (sizeof_hdr + sizeof_disc_req)) kbuf.

(** [rpmsg_omx_release(inode, filp)]; [rp] is the channel the service is
    bound to when the disconnect frame is sent and [pos] the position of
    the instance's node in the service list.  Returns the return value,
    the service once the instance is unlinked, the frames handed to the
    transport and the held resources afterwards.  [list_del(&omx->next)]
    unlinks that one node, whatever the other nodes hold; the instance
    itself is freed. *)
Definition rpmsg_omx_release (omxserv : rpmsg_omx_service)
    (rp : rpmsg_channel) (pos : nat) (omx : rpmsg_omx_instance)
    (held : list resource) (env : release_env)
  : Z * rpmsg_omx_service * list tx_frame * list resource :=
  let sent :=
    if bool_decide (state omx = OMX_CONNECTED) then
      let msg := disconnect_msg (rl_stack env) (dst omx) in
      let omx := async_run omx (rl_between env) in
      if negb (bool_decide (state omx = OMX_FAIL))
      then (rpmsg_send_offchannel (ept omx) (rp_dst rp) msg (rl_send env)).2
      else []
    else [] in
  let held :=
    (idr_for_each (R := Z) rpmsg_omx_idr_unpin_buffer (dma_idr omx) held).2 in
  let omxserv :=
    {| rpdev := rpdev omxserv; minor := minor omxserv;
       omx_list := delete pos (omx_list omxserv);
       comp := comp omxserv |} in
  (0, omxserv, sent, held).

(** ** The service registry: probe and removal *)

(** An entry of the global [rpmsg_omx_services] idr: a service and the name
    of its device ([dev_name(omxserv->dev)], the channel name it was
    created for). *)
Record omx_service_entry := {
  sv_name : list byte;
  sv_serv : rpmsg_omx_service;
}.

(** [_match_omx_service(id, p, data)]: the entry itself when the names
    compare equal under [strcmp], zero otherwise. *)
Definition _match_omx_service (data : list byte) (id : Z)
    (p : omx_service_entry) (u : unit)
  : option (Z * omx_service_entry) * unit :=
  (if bool_decide (cstring (sv_name p) = cstring data)
   then Some (id, p) else None, u).

(** Modelled from the spec: [idr_get_new(idr, ptr, &id)] is kernel library
    code; it binds [ptr] to the smallest unused id, starting from 0. *)
Fixpoint idr_first_unused {V} (fuel : nat) (idr : gmap Z V) (k : Z) : Z :=
  match fuel with
  | O => k
  | S fuel' =>
      match idr !! k with
      | None => k
      | Some _ => idr_first_unused fuel' idr (k + 1)
      end
  end.

Definition idr_get_new {V} (idr : gmap Z V) : Z :=
  idr_first_unused (size idr) idr 0.

(** Environment of one [rpmsg_omx_probe] call: the outcome of each kernel
    service on the way. *)
Record probe_env := {
  pb_idr_pre_get : bool;
  pb_kzalloc : bool;
  pb_idr_get_new : kret;
  pb_cdev_add : kret;
  pb_device_create : kret;
}.

(** [complete_all(&omxserv->comp)] at the label [serv_up]: the counter is
    an [unsigned int] and the addition wraps. *)
Definition serv_up (rp : rpmsg_channel) (omxserv : rpmsg_omx_service)
  : rpmsg_omx_service :=
  {| rpdev := Some rp; minor := minor omxserv;
     omx_list := omx_list omxserv;
     comp := to_u32 (comp omxserv + UINT_MAX / 2) |}.

(** [rpmsg_omx_probe(rpdev)]; [name] is [rpdev->id.name].  Returns the
    return value and the registry afterwards. *)
Definition rpmsg_omx_probe (services : gmap Z omx_service_entry)
    (rp : rpmsg_channel) (name : list byte) (env : probe_env)
  : Z * gmap Z omx_service_entry :=
  match (idr_for_each (_match_omx_service name) services ()).1 with
  | Some (id, p) =>
      (* an already created omx service: re-bind it *)
      (0, <[id := {| sv_name := sv_name p;
                     sv_serv := serv_up rp (sv_serv p) |}]> services)
  | None =>
      if negb (pb_idr_pre_get env) then (- ENOMEM, services)
      else if negb (pb_kzalloc env) then (- ENOMEM, services)
      else
        match pb_idr_get_new env with
        | KErr e => (- Z.pos e, services) (* free_omx *)
        | KOk =>
            let minor := idr_get_new services in
            let omxserv :=
              {| rpdev := Some rp; minor := minor; omx_list := [];
                 comp := 0 |} in
            let entry := {| sv_name := name; sv_serv := omxserv |} in
            let services := <[minor := entry]> services in
            match pb_cdev_add env with
            | KErr e => (- Z.pos e, delete minor services) (* rem_idr *)
            | KOk =>
                match pb_device_create env with
                | KErr e =>
                    (- Z.pos e, delete minor services) (* clean_cdev *)
                | KOk =>
                    (0, <[minor := {| sv_name := name;
                                      sv_serv := serv_up rp omxserv |}]>
                          services)
                end
            end
        end
  end.

(** The effect of [rpmsg_omx_remove] on the registry, for the service
    registered under [id]: a clean removal takes it out of the idr
    ([idr_remove(&rpmsg_omx_services, omxserv->minor)]), a crash updates it
    in place. *)
Definition rpmsg_omx_remove_entry (services : gmap Z omx_service_entry)
    (id : Z) (crashed : bool) : gmap Z omx_service_entry :=
  match services !! id with
  | None => services
  | Some p =>
      match rpmsg_omx_remove (sv_serv p) crashed with
      | None => delete (minor (sv_serv p)) services
      | Some omxserv =>
          <[id := {| sv_name := sv_name p; sv_serv := omxserv |}]> services
      end
  end.

(** ** Notions used by the statements *)

(** The asynchronous delivery of a well-formed raw-data frame carrying
    [payload]. *)
Definition deliver (payload : list byte) : async_event :=
  AsyncCb (frame OMX_RAW_MSG (Z.of_nat (length payload)) payload)
    (sizeof_hdr + Z.of_nat (length payload)) true.

(** [n] successive non-blocking reads into a buffer of [len] bytes: what
    each one copied out. *)
Fixpoint read_all (omx : rpmsg_omx_instance) (n : nat) (len : Z)
  : list (list byte) :=
  match n with
  | O => []
  | S n' =>
      let r := rpmsg_omx_read omx O_NONBLOCK len read_env_sample in
      r.2 :: read_all r.1.2 n' len
  end.


(** What a registered buffer holds on the rest of the kernel, in the order
    the pin acquired it (latest first). *)
Definition dma_resources (dma : rpmsg_omx_dma_info) : list resource :=
  [ResMap (attach dma) (sgt dma); ResAttach (dbuf dma) (attach dma);
   ResBufRef (dbuf dma); ResDmaInfo].

(** A pin environment in which every kernel service succeeds, yielding the
    descriptor [dma]. *)
Definition pin_env_ok (dma : rpmsg_omx_dma_info) : pin_env :=
  {| pe_kmalloc := true; pe_dma_buf_get := inr (dbuf dma);
     pe_dma_buf_attach := inr (attach dma);
     pe_dma_buf_map := inr (sgt dma, sgt_pa dma);
     pe_idr_pre_get := true; pe_idr_get_new := KOk |}.

(** The resources held on account of the entries of a registry, each entry
    counted once, in the order [idr_for_each] visits them. *)
Definition registry_resources (idr : gmap Z rpmsg_omx_dma_info)
  : list resource :=
  mjoin ((λ id, from_option dma_resources [] (idr !! id)) <$> idr_ids idr).

(** * Properties *)

(** ** Invariants of an instance along its histories *)

(** A property of instances that survives the asynchronous events, the
    consumption of a completion token and the updates of the queue and of
    the registry survives every client call, hence every history. *)
Section Preservation.
Variable P : rpmsg_omx_instance → Prop.
Hypothesis P_async : ∀ omx a, P omx → P (async_step omx a).
Hypothesis P_token : ∀ omx,
  P omx → 0 < reply_arrived omx →
  P (set_reply_arrived (reply_arrived omx - 1) omx).
Hypothesis P_queue : ∀ omx q, P omx → P (set_queue q omx).
Hypothesis P_idr : ∀ omx m, P omx → P (set_dma_idr m omx).

Lemma async_run_preserves evs : ∀ omx, P omx → P (async_run omx evs).
Proof.
  induction evs as [|a evs IH]; intros omx H; simpl; [done |].
  by apply IH, P_async.
Qed.

Lemma wait_for_completion_preserves omx left signal :
  P omx → P (wait_for_completion_interruptible_timeout omx left signal).2.
Proof.
  intros H. unfold wait_for_completion_interruptible_timeout.
  destruct (0 <? reply_arrived omx) eqn:Hdone; simpl.
  - apply P_token; [done | by apply Z.ltb_lt].
  - by destruct signal.
Qed.

Lemma rpmsg_omx_connect_preserves rp omx omxname env :
  P omx → P (rpmsg_omx_connect rp omx omxname env).1.2.
Proof.
  intros H. unfold rpmsg_omx_connect.
  case_bool_decide; simpl; [done |].
  destruct (if bool_decide (state omx = OMX_FAIL) then _ else _)
    as [ret sent].
  destruct (negb (ret =? 0)); simpl; [done |].
  pose proof (wait_for_completion_preserves
                (async_run omx (ce_during env)) (ce_left env)
                (ce_signal env) (async_run_preserves _ _ H)) as Hw.
  destruct (wait_for_completion_interruptible_timeout _ _ _) as [ret' omx'].
  simpl in *. by apply async_run_preserves.
Qed.

Lemma wait_event_preserves during : ∀ omx signal,
  P omx → P (wait_event_interruptible omx during signal).2.
Proof.
  induction during as [|ev during IH]; intros omx signal H; simpl.
  - by repeat case_match.
  - case_match; simpl; [done |]. by apply IH, P_async.
Qed.

Lemma read_dequeue_preserves omx len copy_ok :
  P omx → P (read_dequeue omx len copy_ok).1.2.
Proof.
  intros H. unfold read_dequeue.
  repeat case_match; simpl; auto.
Qed.

Lemma rpmsg_omx_read_preserves omx f_flags len env :
  P omx → P (rpmsg_omx_read omx f_flags len env).1.2.
Proof.
  intros H. unfold rpmsg_omx_read.
  case_bool_decide; simpl; [done |].
  destruct (skb_queue_empty (queue omx)).
  - destruct (negb _); simpl; [done |].
    pose proof (wait_event_preserves (re_during env) omx (re_signal env) H)
      as Hw.
    destruct (wait_event_interruptible _ _ _) as [[ret|] omx']; simpl in *;
      [| done].
    destruct (negb _); simpl; [done |].
    by apply read_dequeue_preserves.
  - by apply read_dequeue_preserves.
Qed.

Lemma rpmsg_omx_pin_buffer_preserves omx fd held env :
  P omx → P (rpmsg_omx_pin_buffer omx fd held env).1.2.
Proof.
  intros H. unfold rpmsg_omx_pin_buffer, idr_get_new_above.
  repeat case_match; simplify_eq; simpl; auto.
Qed.

Lemma rpmsg_omx_unpin_buffer_preserves omx fd held get :
  P omx → P (rpmsg_omx_unpin_buffer omx fd held get).1.2.
Proof.
  intros H. unfold rpmsg_omx_unpin_buffer, rpmsg_omx_dma_find.
  repeat case_match; simplify_eq; simpl; auto.
Qed.

Lemma rpmsg_omx_ioctl_preserves rp omx cmd arg held env :
  P omx → P (rpmsg_omx_ioctl rp omx cmd arg held env).1.1.2.
Proof.
  intros H. unfold rpmsg_omx_ioctl. destruct cmd; simpl; try done.
  - destruct (copy_from_user _ _) as [buf|]; simpl; [| done].
    pose proof (rpmsg_omx_connect_preserves rp omx
                  (<[Z.to_nat (sizeof_buf - 1) := x00]> buf)
                  (ie_connect env) H) as Hc.
    by destruct (rpmsg_omx_connect _ _ _ _) as [[ret omx'] sent].
  - pose proof (rpmsg_omx_pin_buffer_preserves omx (to_s32 arg) held
                  (ie_pin env) H) as Hp.
    by destruct (rpmsg_omx_pin_buffer _ _ _ _) as [[ret omx'] held'].
  - pose proof (rpmsg_omx_unpin_buffer_preserves omx (to_s32 arg) held
                  (ie_dma_buf_get env) H) as Hp.
    by destruct (rpmsg_omx_unpin_buffer _ _ _ _) as [[ret omx'] held'].
Qed.

Lemma step_preserves omx ev : P omx → P (step omx ev).
Proof.
  intros H. destruct ev; simpl; try done.
  - by apply P_async.
  - by apply rpmsg_omx_connect_preserves.
  - by apply rpmsg_omx_ioctl_preserves.
  - by apply rpmsg_omx_read_preserves.
Qed.

Lemma run_preserves evs : ∀ omx, P omx → P (run omx evs).
Proof.
  induction evs as [|ev evs IH]; intros omx H; simpl; [done |].
  by apply IH, step_preserves.
Qed.
End Preservation.

(** ** The state field *)

Lemma allowed_refl s : allowed s s.
Proof. by left. Qed.

Lemma allowed_trans s1 s2 s3 : allowed s1 s2 → allowed s2 s3 → allowed s1 s3.
Proof.
  unfold allowed. intros H12 H23.
  destruct s1, s2, s3; intuition congruence.
Qed.

Lemma allowed_from_fail s : allowed OMX_FAIL s → s = OMX_FAIL.
Proof. unfold allowed. intuition congruence. Qed.

Lemma rpmsg_omx_cb_allowed omx data len alloc_ok :
  allowed (state omx) (state (rpmsg_omx_cb omx data len alloc_ok)).
Proof.
  unfold rpmsg_omx_cb.
  repeat case_match; simpl; try apply allowed_refl.
  - by right; right.
  - destruct (state omx) eqn:Hs; simpl in *.
    + right; left; done.
    + by left.
    + by rewrite bool_decide_eq_true_2 in *.
Qed.

Lemma omx_crash_state omx : state (omx_crash omx) = OMX_FAIL.
Proof. reflexivity. Qed.

Lemma async_step_allowed omx a : allowed (state omx) (state (async_step omx a)).
Proof.
  destruct a; simpl.
  - apply rpmsg_omx_cb_allowed.
  - by right; right.
Qed.

(** Being within reach of [s0] is an invariant. *)
Lemma async_run_allowed evs omx :
  allowed (state omx) (state (async_run omx evs)).
Proof.
  apply (async_run_preserves (λ o, allowed (state omx) (state o)));
    [| apply allowed_refl].
  intros o a H. eapply allowed_trans; [apply H | apply async_step_allowed].
Qed.

Lemma run_allowed evs omx : allowed (state omx) (state (run omx evs)).
Proof.
  apply (run_preserves (λ o, allowed (state omx) (state o)));
    try done; [| apply allowed_refl].
  intros o a H. eapply allowed_trans; [apply H | apply async_step_allowed].
Qed.

Lemma wait_for_completion_state omx left signal :
  state (wait_for_completion_interruptible_timeout omx left signal).2
  = state omx.
Proof.
  by apply (wait_for_completion_preserves (λ o, state o = state omx)).
Qed.

(** C2.  Along every history of a connection (inbound frames with any
    content, hence connect responses with any status, crash notifications,
    and the client calls connect, ioctl, read, write, poll, each in any
    environment) the state field only moves Unconnected → Connected or
    into Failed, and Failed is terminal; in particular a connect response,
    whatever its status, leaves a Failed connection Failed. *)
Theorem state_transitions_monotone (omx : rpmsg_omx_instance)
    (evs : list event) (data : list byte) (len : Z) (alloc_ok : bool) :
  let omx' := run omx evs in
  allowed (state omx) (state omx')
  ∧ match state omx with
    | OMX_FAIL => state omx' = OMX_FAIL
    | OMX_CONNECTED => state omx' ≠ OMX_UNCONNECTED
    | OMX_UNCONNECTED => True
    end
  ∧ state (rpmsg_omx_cb (set_state OMX_FAIL omx) data len alloc_ok)
    = OMX_FAIL
  ∧ state (run (omx_crash omx) evs) = OMX_FAIL.
Proof.
  simpl. pose proof (run_allowed evs omx) as Hrun.
  split; [done |]. split; [| split].
  - destruct (state omx) eqn:Hs; [done | |].
    + destruct Hrun as [-> | [[? _] | ->]]; congruence.
    + by apply allowed_from_fail.
  - apply allowed_from_fail.
    apply (rpmsg_omx_cb_allowed (set_state OMX_FAIL omx)).
  - apply allowed_from_fail. apply (run_allowed evs (omx_crash omx)).
Qed.

(** The service-level crash path applies [omx_crash] to every live
    instance: all of them end up Failed and the channel is cleared. *)
Lemma rpmsg_omx_remove_crash omxserv omxserv' :
  rpmsg_omx_remove omxserv true = Some omxserv' →
  rpdev omxserv' = None
  ∧ Forall (λ omx, state omx = OMX_FAIL) (omx_list omxserv').
Proof.
  intros [= <-]; simpl. split; [done |].
  apply Forall_fmap, Forall_forall. intros omx _. apply omx_crash_state.
Qed.

(** ** Readiness *)

(** C10.  The readiness mask of a connection that is not Failed has the
    readable bits exactly when the inbound queue is non-empty and always
    has the writable bits; once the state is Failed the mask is the error
    bit alone, readable and writable bits suppressed. *)
Theorem poll_readiness (omx : rpmsg_omx_instance) :
  let mask := rpmsg_omx_poll omx in
  (state omx ≠ OMX_FAIL →
     (Z.land mask POLLIN ≠ 0 ↔ queue omx ≠ [])
     ∧ (Z.land mask POLLRDNORM ≠ 0 ↔ queue omx ≠ [])
     ∧ Z.land mask POLLOUT = POLLOUT
     ∧ Z.land mask POLLWRNORM = POLLWRNORM
     ∧ Z.land mask POLLERR = 0)
  ∧ (state omx = OMX_FAIL →
     mask = POLLERR
     ∧ Z.land mask (Z.lor POLLIN POLLRDNORM) = 0
     ∧ Z.land mask (Z.lor POLLOUT POLLWRNORM) = 0).
Proof.
  unfold rpmsg_omx_poll. simpl. split; intros Hs.
  - rewrite bool_decide_eq_false_2 by done.
    destruct (queue omx) as [|skb q]; simpl; vm_compute; intuition congruence.
  - rewrite bool_decide_eq_true_2 by done. by vm_compute.
Qed.

Lemma poll_readiness_witness :
  Z.land (rpmsg_omx_poll (omx_sample OMX_CONNECTED [[x2a]])) POLLOUT = POLLOUT
  ∧ rpmsg_omx_poll (omx_sample OMX_FAIL [[x2a]]) = POLLERR.
Proof.
  split.
  - apply (poll_readiness (omx_sample OMX_CONNECTED [[x2a]])). discriminate.
  - apply (poll_readiness (omx_sample OMX_FAIL [[x2a]])). reflexivity.
Defined.

(** ** The dispatcher's length guard *)

(** The guard of [rpmsg_omx_cb] lets a raw-data frame through exactly when
    its declared payload length is at least the received payload length. *)
Lemma rpmsg_omx_cb_raw_accepted omx data len :
  sizeof_hdr ≤ len < 2 ^ 32 →
  load32 data 0 = OMX_RAW_MSG →
  len - sizeof_hdr ≤ load32 data 8 →
  queue (rpmsg_omx_cb omx data len true)
  = queue omx
    ++ [read_bytes data (Z.to_nat sizeof_hdr) (Z.to_nat (load32 data 8))].
Proof.
  intros Hlen Htype Hdecl. unfold rpmsg_omx_cb.
  assert (to_u32 len = len) as ->.
  { unfold to_u32, sizeof_hdr in *. apply Z.mod_small. lia. }
  assert (to_u32 (len - sizeof_hdr) = len - sizeof_hdr) as ->.
  { unfold to_u32, sizeof_hdr in *. apply Z.mod_small. lia. }
  rewrite (proj2 (Z.ltb_ge len sizeof_hdr)) by lia.
  rewrite (proj2 (Z.ltb_ge _ _)) by lia.
  rewrite Htype. reflexivity.
Qed.

(** C3.  The dispatcher accepts and queues a raw-data frame whose header
    declares more payload than was received: 16 bytes arrive (4 of
    payload), the header declares 100, and a 100-byte queue entry is
    filled from the 4 received payload bytes onwards. *)
Theorem cb_accepts_overlong_raw_frame :
  let omx := omx_sample OMX_CONNECTED [] in
  let omx' := rpmsg_omx_cb omx overlong_frame 16 true in
  load32 overlong_frame 0 = OMX_RAW_MSG
  ∧ load32 overlong_frame 8 = 100
  ∧ 16 - sizeof_hdr = 4
  ∧ ∃ skb, queue omx' = [skb] ∧ length skb = 100%nat
           ∧ take 4 skb = [xde; xad; xbe; xef].
Proof.
  simpl. repeat split; try reflexivity.
  eexists. split; [by vm_compute |]. by vm_compute.
Qed.

(** ** read *)

Lemma wait_event_ready omx during signal :
  negb (skb_queue_empty (queue omx)) || bool_decide (state omx = OMX_FAIL)
  = true →
  wait_event_interruptible omx during signal = (Some 0, omx).
Proof. intros H. destruct during; simpl; by rewrite H. Qed.

(** C1, as the code has it.  A read on a Failed connection never delivers a
    frame and leaves the queue as it is: it returns -ENXIO, except that a
    non-blocking read on an empty queue returns -EAGAIN. *)
Theorem read_on_failed (omx : rpmsg_omx_instance) (f_flags len : Z)
    (env : read_env) :
  state omx = OMX_FAIL →
  rpmsg_omx_read omx f_flags len env
  = (Some (if skb_queue_empty (queue omx)
              && negb (Z.land f_flags O_NONBLOCK =? 0)
           then - EAGAIN else - ENXIO), omx, []).
Proof.
  intros Hs. unfold rpmsg_omx_read, read_dequeue.
  rewrite Hs. simpl.
  destruct (queue omx) as [|skb q] eqn:Hq; simpl; [| done].
  destruct (negb _); [done |].
  rewrite wait_event_ready; simpl.
  - by rewrite Hs.
  - rewrite Hs. apply orb_true_r.
Qed.

Lemma read_on_failed_witness :
  rpmsg_omx_read (omx_sample OMX_FAIL [[x2a]]) 0 16 read_env_sample
  = (Some (- ENXIO), omx_sample OMX_FAIL [[x2a]], []).
Proof.
  apply (read_on_failed (omx_sample OMX_FAIL [[x2a]]) 0 16 read_env_sample).
  reflexivity.
Defined.

(** A frame queued before a crash is not delivered to a read issued after
    the crash: the read fails with -ENXIO and the frame stays queued. *)
Lemma read_after_crash_not_drained :
  let omx :=
    async_run (omx_sample OMX_CONNECTED [])
      [AsyncCb raw_frame 13 true; AsyncCrash] in
  queue omx = [[x2a]]
  ∧ state omx = OMX_FAIL
  ∧ (rpmsg_omx_read omx 0 16 read_env_sample).1.1 = Some (- ENXIO)
  ∧ (rpmsg_omx_read omx 0 16 read_env_sample).2 ≠ [x2a]
  ∧ queue (rpmsg_omx_read omx 0 16 read_env_sample).1.2 = [[x2a]].
Proof. by vm_compute. Qed.

(** ** connect *)

(** C6.  A connect on a Connected instance returns -EISCONN at once: no
    frame is handed to the transport and the instance (state, destination
    address, queue) is unchanged.  The same holds through the connect
    ioctl once the name has been copied in. *)
Theorem connect_when_connected (rp : rpmsg_channel)
    (omx : rpmsg_omx_instance) (omxname : list byte) (env : connect_env)
    (arg : Z) (held : list resource) (ienv : ioctl_env) :
  state omx = OMX_CONNECTED →
  rpmsg_omx_connect rp omx omxname env = (- EISCONN, omx, [])
  ∧ (sizeof_buf ≤ Z.of_nat (length (ie_user ienv)) →
     rpmsg_omx_ioctl rp omx OMX_IOCCONNECT arg held ienv
     = (- EISCONN, omx, [], held)).
Proof.
  intros Hs.
  assert (∀ name e, rpmsg_omx_connect rp omx name e = (- EISCONN, omx, []))
    as Hc.
  { intros name e. unfold rpmsg_omx_connect.
    by rewrite bool_decide_eq_true_2. }
  split; [apply Hc |].
  intros Hlen. unfold rpmsg_omx_ioctl, copy_from_user.
  rewrite (proj2 (Z.leb_le _ _)) by done. by rewrite Hc.
Qed.

Lemma connect_when_connected_witness :
  rpmsg_omx_connect channel_sample (omx_sample OMX_CONNECTED [[x2a]])
    [x61; x00] (connect_env_sample [])
  = (- EISCONN, omx_sample OMX_CONNECTED [[x2a]], []).
Proof.
  apply (connect_when_connected channel_sample
           (omx_sample OMX_CONNECTED [[x2a]]) [x61; x00]
           (connect_env_sample []) 0 []
           ioctl_env_long_name).
  reflexivity.
Defined.

Lemma quiet_step omx ev :
  quiet ev = true →
  state (async_step omx ev) = state omx
  ∧ reply_arrived (async_step omx ev) = reply_arrived omx.
Proof.
  destruct ev as [data len alloc_ok|]; simpl; [| done].
  intros Hq%negb_true_iff. unfold rpmsg_omx_cb. rewrite Hq.
  repeat case_match; done.
Qed.

Lemma quiet_run evs : ∀ omx,
  forallb quiet evs = true →
  state (async_run omx evs) = state omx
  ∧ reply_arrived (async_run omx evs) = reply_arrived omx.
Proof.
  induction evs as [|ev evs IH]; intros omx; simpl; [done |].
  intros [Hev Hevs]%andb_true_iff.
  destruct (quiet_step omx ev Hev) as [<- <-]. by apply IH.
Qed.

Lemma async_run_crash evs : ∀ omx,
  AsyncCrash ∈ evs → state (async_run omx evs) = OMX_FAIL.
Proof.
  induction evs as [|ev evs IH]; intros omx Hin.
  - by apply elem_of_nil in Hin.
  - apply elem_of_cons in Hin as [<- | Hin]; simpl.
    + apply allowed_from_fail. apply (async_run_allowed evs (omx_crash omx)).
    + by apply IH.
Qed.

(** The completion invariant along histories. *)
Lemma async_step_pending omx a :
  completion_pending omx → completion_pending (async_step omx a).
Proof.
  unfold completion_pending. destruct a as [data len alloc_ok|]; simpl;
    [| done].
  unfold rpmsg_omx_cb. repeat case_match; simpl in *; try done.
  destruct (state omx); done.
Qed.

Lemma run_pending evs omx :
  completion_pending omx → completion_pending (run omx evs).
Proof.
  apply (run_preserves completion_pending); try done.
  - apply async_step_pending.
  - unfold completion_pending. simpl. intros o H Hdone Hs.
    rewrite (H Hs) in Hdone. lia.
Qed.

Lemma omx_new_pending addr : completion_pending (omx_new addr).
Proof. done. Qed.

Lemma async_run_from_fail evs omx :
  state omx = OMX_FAIL → state (async_run omx evs) = OMX_FAIL.
Proof.
  intros Hs. apply allowed_from_fail. rewrite <- Hs.
  apply async_run_allowed.
Qed.

(** The two ways a pending connect ends without a reply. *)
Lemma rpmsg_omx_connect_wake rp omx omxname env :
  state omx = OMX_UNCONNECTED →
  completion_pending omx →
  ce_send env = KOk →
  let r := rpmsg_omx_connect rp omx omxname env in
  (forallb quiet (ce_during env ++ ce_window env) = true →
   ce_signal env = false →
     r.1.1 = - ETIMEDOUT ∧ state r.1.2 = OMX_UNCONNECTED)
  ∧ (state r.1.2 = OMX_FAIL → r.1.1 = - ENXIO)
  ∧ (AsyncCrash ∈ ce_during env ++ ce_window env → r.1.1 = - ENXIO).
Proof.
  intros Hs Hp Hsend. simpl. unfold rpmsg_omx_connect.
  rewrite Hs, Hsend. simpl.
  pose proof (wait_for_completion_state (async_run omx (ce_during env))
                (ce_left env) (ce_signal env)) as Hw.
  split; [| split].
  - intros Hq Hsig. rewrite forallb_app in Hq.
    apply andb_true_iff in Hq as [Hq1 Hq2].
    destruct (quiet_run (ce_during env) omx Hq1) as [Hst Hre].
    unfold wait_for_completion_interruptible_timeout in *.
    rewrite Hre, (Hp Hs), Hsig. simpl.
    destruct (quiet_run (ce_window env) (async_run omx (ce_during env)) Hq2)
      as [Hst2 _].
    by rewrite Hst2, Hst, Hs.
  - destruct (wait_for_completion_interruptible_timeout _ _ _)
      as [ret omx'] eqn:Heq.
    simpl. intros Hf. by rewrite bool_decide_eq_true_2.
  - intros Hcrash.
    destruct (wait_for_completion_interruptible_timeout _ _ _)
      as [ret omx'] eqn:Heq.
    simpl in *.
    rewrite bool_decide_eq_true_2; [done |].
    apply elem_of_app in Hcrash as [Hcrash | Hcrash].
    + apply async_run_from_fail. rewrite Hw. by apply async_run_crash.
    + by apply async_run_crash.
Qed.

(** C7.  On any instance reached from open by any history and still
    Unconnected, a connect whose request is sent, during which neither a
    connect response nor a crash arrives (while the caller sleeps or
    before it holds the lock again) and which no signal interrupts before
    the 5-second window elapses, returns -ETIMEDOUT and leaves the state
    Unconnected; whenever the state is Failed at wake time, in particular
    after a crash during the call, the result is -ENXIO. *)
Theorem connect_timeout_or_disconnected (addr : Z) (history : list event)
    (rp : rpmsg_channel) (omxname : list byte) (env : connect_env) :
  let omx := run (omx_new addr) history in
  let r := rpmsg_omx_connect rp omx omxname env in
  state omx = OMX_UNCONNECTED →
  ce_send env = KOk →
  (forallb quiet (ce_during env ++ ce_window env) = true →
   ce_signal env = false →
     r.1.1 = - ETIMEDOUT ∧ state r.1.2 = OMX_UNCONNECTED)
  ∧ (state r.1.2 = OMX_FAIL → r.1.1 = - ENXIO ∧ r.1.1 ≠ - ETIMEDOUT)
  ∧ (AsyncCrash ∈ ce_during env ++ ce_window env → r.1.1 = - ENXIO).
Proof.
  intros omx r Hs Hsend.
  destruct (rpmsg_omx_connect_wake rp omx omxname env Hs
              (run_pending history _ (omx_new_pending addr)) Hsend)
    as (Ht & Hf & Hc).
  split; [done |]. split; [| done].
  intros Hfail. split; [by apply Hf |].
  fold r in Hf. rewrite (Hf Hfail). done.
Qed.

Lemma connect_timeout_or_disconnected_witness :
  (rpmsg_omx_connect channel_sample (run (omx_new 1024) [EvPoll])
     [x61; x00]
     {| ce_send := KOk; ce_during := [AsyncCb raw_frame 13 true];
        ce_left := 1200%positive; ce_signal := false;
        ce_window := [AsyncCb raw_frame 13 true] |}).1.1
  = - ETIMEDOUT
  ∧ (rpmsg_omx_connect channel_sample (run (omx_new 1024) [EvPoll])
       [x61; x00] (connect_env_sample [AsyncCrash])).1.1
    = - ENXIO.
Proof.
  split.
  - apply (connect_timeout_or_disconnected 1024 [EvPoll] channel_sample
             [x61; x00]
             {| ce_send := KOk; ce_during := [AsyncCb raw_frame 13 true];
                ce_left := 1200%positive; ce_signal := false;
                ce_window := [AsyncCb raw_frame 13 true] |});
      reflexivity.
  - apply (connect_timeout_or_disconnected 1024 [EvPoll] channel_sample
             [x61; x00] (connect_env_sample [AsyncCrash]));
      [reflexivity | reflexivity |].
    apply list_elem_of_here.
Defined.

(** ** open *)

(** C4, as the code has it.  A non-blocking open on a service with no
    channel bound fails at once, without sleeping and without creating a
    connection: with -EBUSY, or with -ENOMEM when the instance could not
    be allocated in the first place. *)
Theorem open_nonblock_unbound (omxserv : rpmsg_omx_service) (f_flags : Z)
    (env : open_env) :
  rpdev omxserv = None →
  Z.land f_flags O_NONBLOCK ≠ 0 →
  rpmsg_omx_open omxserv f_flags env
  = Some (if oe_kzalloc env then - EBUSY else - ENOMEM, omxserv).
Proof.
  intros Hrp Hnb. unfold rpmsg_omx_open.
  destruct (oe_kzalloc env); simpl; [| done].
  rewrite Hrp. simpl.
  by rewrite (proj2 (Z.eqb_neq _ _) Hnb).
Qed.

Lemma open_nonblock_unbound_witness :
  rpmsg_omx_open (service_sample None) O_NONBLOCK open_env_sample
  = Some (- EBUSY, service_sample None).
Proof.
  apply (open_nonblock_unbound (service_sample None) O_NONBLOCK
           open_env_sample); [reflexivity | discriminate].
Defined.

(** The error of a non-blocking open without a channel is not the
    would-block error -EAGAIN. *)
Lemma open_nonblock_unbound_not_eagain :
  rpdev (service_sample None) = None
  ∧ Z.land O_NONBLOCK O_NONBLOCK ≠ 0
  ∧ (fst <$> rpmsg_omx_open (service_sample None) O_NONBLOCK open_env_sample)
    = Some (- EBUSY)
  ∧ (fst <$> rpmsg_omx_open (service_sample None) O_NONBLOCK open_env_sample)
    ≠ Some (- EAGAIN).
Proof. by vm_compute. Qed.

(** ** The connect ioctl *)

Lemma cstring_snoc_nul (s : list byte) : cstring (s ++ [x00]) = cstring s.
Proof.
  induction s as [|b s IH]; simpl; [done |].
  destruct (Byte.eqb b x00); [done |]. by rewrite IH.
Qed.

Lemma cstring_no_nul (s : list byte) : x00 ∉ s → cstring s = s.
Proof.
  induction s as [|b s IH]; simpl; [done |].
  intros Hnin. apply not_elem_of_cons in Hnin as [Hb Hs].
  destruct (Byte.eqb b x00) eqn:Heq.
  - apply Byte.byte_dec_bl in Heq. congruence.
  - by rewrite IH.
Qed.

Lemma cstring_length (s : list byte) : (length (cstring s) ≤ length s)%nat.
Proof.
  induction s as [|b s IH]; simpl; [done |].
  destruct (Byte.eqb b x00); simpl; lia.
Qed.

Lemma ioctl_name_buffer (user : list byte) :
  (48 ≤ length user)%nat →
  <[47%nat := x00]> (take 48 user) = take 47 user ++ [x00].
Proof.
  intros Hlen.
  destruct (lookup_lt_is_Some_2 user 47 ltac:(lia)) as [b Hb].
  rewrite (take_S_r user 47 b Hb).
  rewrite insert_app_r_alt by (rewrite length_take; lia).
  rewrite length_take.
  replace (47 - 47 `min` length user)%nat with 0%nat by lia.
  reflexivity.
Qed.

(** C5, as the code has it.  The connect ioctl copies 48 bytes from the
    caller and overwrites the last one with NUL: a name too long for the
    field is not rejected but cut to its first 47 bytes, and the connect
    proceeds with the cut name exactly as [rpmsg_omx_connect] would. *)
Theorem ioctl_connect_truncates (rp : rpmsg_channel)
    (omx : rpmsg_omx_instance) (arg : Z) (held : list resource)
    (env : ioctl_env) :
  sizeof_buf ≤ Z.of_nat (length (ie_user env)) →
  let name := take 47 (ie_user env) in
  let r := rpmsg_omx_connect rp omx (name ++ [x00]) (ie_connect env) in
  rpmsg_omx_ioctl rp omx OMX_IOCCONNECT arg held env = (r, held)
  ∧ strlen (name ++ [x00]) ≤ 47
  ∧ (x00 ∉ take 48 (ie_user env) → cstring (name ++ [x00]) = name).
Proof.
  intros Hlen name r. unfold sizeof_buf in Hlen. split; [| split].
  - unfold rpmsg_omx_ioctl, copy_from_user, sizeof_buf.
    rewrite (proj2 (Z.leb_le _ _)) by done.
    change (Z.to_nat 48) with 48%nat. change (Z.to_nat (48 - 1)) with 47%nat.
    rewrite ioctl_name_buffer by lia. fold name. fold r.
    by destruct r as [[ret omx'] sent].
  - unfold strlen. rewrite cstring_snoc_nul.
    pose proof (cstring_length name) as Hc.
    unfold name in *. rewrite length_take in Hc. lia.
  - intros Hnin. rewrite cstring_snoc_nul. apply cstring_no_nul.
    intros Hin. apply Hnin. unfold name in Hin.
    apply list_elem_of_lookup in Hin as [i Hi].
    apply lookup_take_Some in Hi as [Hi Hlt].
    apply list_elem_of_lookup. exists i.
    apply lookup_take_Some. split; [done | lia].
Qed.

Lemma ioctl_connect_truncates_witness :
  rpmsg_omx_ioctl channel_sample (omx_sample OMX_UNCONNECTED [])
    OMX_IOCCONNECT 0 [] ioctl_env_long_name
  = (rpmsg_omx_connect channel_sample (omx_sample OMX_UNCONNECTED [])
       (take 47 (ie_user ioctl_env_long_name) ++ [x00])
       (ie_connect ioctl_env_long_name), []).
Proof.
  apply (ioctl_connect_truncates channel_sample
           (omx_sample OMX_UNCONNECTED []) 0 [] ioctl_env_long_name).
  by vm_compute.
Defined.

(** A 64-letter name with no terminator among its first 48 bytes is not
    rejected: the ioctl succeeds, the connection becomes Connected, and the
    request on the wire carries the first 47 letters. *)
Lemma ioctl_connect_long_name_accepted :
  let r := rpmsg_omx_ioctl channel_sample (omx_sample OMX_UNCONNECTED [])
             OMX_IOCCONNECT 0 [] ioctl_env_long_name in
  (x00 ∉ take 48 (ie_user ioctl_env_long_name))
  ∧ 0 ≤ r.1.1.1
  ∧ state r.1.1.2 = OMX_CONNECTED
  ∧ (tx_data <$> r.1.2)
    = [connect_msg (replicate 47 x61 ++ [x00])].
Proof.
  intros r. split; [| by vm_compute].
  intros Hin. apply list_elem_of_lookup in Hin as [i Hi].
  apply lookup_take_Some in Hi as [Hi _].
  unfold ioctl_env_long_name in Hi. cbn [ie_user] in Hi.
  apply lookup_replicate in Hi as [Hi _]. discriminate.
Qed.

(** ** write: the embedded-handle rewrite *)

Lemma mstore_bytes_other (m : memory) off src o :
  o < off ∨ off + Z.of_nat (length src) ≤ o →
  mstore_bytes m off src o = m o.
Proof.
  intros Ho. unfold mstore_bytes.
  destruct (Z.leb_spec off o) as [Hle | Hlt]; [| done].
  by rewrite lookup_ge_None_2 by lia.
Qed.



(** Every error of the translation chain is a negative errno. *)
Lemma _rpmsg_omx_buffer_get_error omx buffer tr get :
  (_rpmsg_omx_buffer_get omx buffer tr get).1.1 ≠ 0 →
  (_rpmsg_omx_buffer_get omx buffer tr get).1.1 < 0.
Proof.
  unfold _rpmsg_omx_buffer_get, rpmsg_omx_dma_find, _rpmsg_pa_to_da.
  repeat case_match; simplify_eq; simpl; intros; try done; lia.
Qed.




(** The handle array of [payload_outside] lies behind the end of [kbuf]:
    the word translated is the one the stack holds there (9, which is not
    registered), not a word of the payload, and the write is refused even
    though the handle 0 is registered. *)
Example write_handle_outside_kbuf :
  let kbuf := write_kbuf write_env_stack payload_outside in
  let data := sizeof_hdr + offsetof_packet_data in
  data + to_s32 (mload32 kbuf (data + 4)) = 600
  ∧ sizeof_kbuf ≤ 600
  ∧ mload32 kbuf 600 = 9
  ∧ is_Some (dma_idr omx_pinned0 !! 0)
  ∧ rpmsg_omx_write omx_pinned0 payload_outside 28 write_env_stack
    = (- EIO, [], [])
  ∧ (rpmsg_omx_write omx_pinned0 payload_outside 28
       {| we_stack := λ _, x00; we_pa_to_da := we_pa_to_da write_env_stack;
          we_dma_buf_get := fd_table_sample; we_send := KOk |}).1.1 = 28.
Proof.
  repeat split; try by vm_compute. eexists. by vm_compute.
Qed.

(** ** The dma-buf registry: pin *)

Lemma release_head r held : release r (r :: held) = held.
Proof. simpl. by rewrite bool_decide_eq_true_2. Qed.

#[local] Arguments release : simpl never.

(** The id the allocator picks is unused. *)
Lemma idr_first_free_spec (idr : gmap Z rpmsg_omx_dma_info) n :
  ∀ k (X : gset Z),
    (∀ x, x ∈ dom idr → k ≤ x → x ∈ X) →
    (size X ≤ n)%nat →
    idr !! idr_first_free n idr k = None.
Proof.
  induction n as [|n IH]; intros k X Hcover Hsize; simpl.
  - apply not_elem_of_dom. intros Hk.
    assert (X = ∅) as -> by (apply leibniz_equiv, size_empty_iff; lia).
    specialize (Hcover k Hk ltac:(lia)). by apply not_elem_of_empty in Hcover.
  - destruct (idr !! k) as [v|] eqn:Hk; [| done].
    apply (IH (k + 1) (X ∖ {[k]})).
    + intros x Hx Hle. apply elem_of_difference. split.
      * apply Hcover; [done | lia].
      * rewrite elem_of_singleton. lia.
    + assert (k ∈ X) as HkX.
      { apply Hcover; [| lia]. apply elem_of_dom. by eexists. }
      assert (X = {[k]} ∪ X ∖ {[k]}) as HX.
      { apply set_eq. intros x. rewrite elem_of_union, elem_of_difference,
          elem_of_singleton.
        destruct (decide (x = k)) as [-> |]; intuition. }
      assert ({[k]} ## X ∖ {[k]}) as Hdisj.
      { apply elem_of_disjoint. intros x Hx1 Hx2.
        by apply elem_of_difference in Hx2 as [_ Hx2]. }
      rewrite HX, (size_union _ _ Hdisj), size_singleton in Hsize.
      lia.
Qed.

Lemma idr_get_new_above_fresh (idr : gmap Z rpmsg_omx_dma_info) ptr start :
  idr !! (idr_get_new_above idr ptr start).2 = None.
Proof.
  unfold idr_get_new_above. simpl.
  apply (idr_first_free_spec idr (size idr) start (dom idr)); [done |].
  by rewrite size_dom.
Qed.

Lemma set_dma_idr_same omx : set_dma_idr (dma_idr omx) omx = omx.
Proof. by destruct omx. Qed.

Lemma set_dma_idr_twice m1 m2 omx :
  set_dma_idr m2 (set_dma_idr m1 omx) = set_dma_idr m2 omx.
Proof. done. Qed.

(** C9.  A pin of a handle that is already registered is rejected with an
    error; and every failing pin, this one included, leaves the instance
    (hence the registry and the existing entry) as it was and gives back
    every resource it had acquired: descriptor, buffer reference,
    attachment, mapping and provisional registry slot. *)
Theorem pin_failure_unwinds (omx : rpmsg_omx_instance) (fd : Z)
    (held : list resource) (env : pin_env) :
  let r := rpmsg_omx_pin_buffer omx fd held env in
  (is_Some (dma_idr omx !! fd) → r.1.1 < 0)
  ∧ (r.1.1 ≠ 0 → r.1.2 = omx ∧ r.2 = held).
Proof.
  simpl. unfold rpmsg_omx_pin_buffer.
  pose proof (idr_get_new_above_fresh (dma_idr omx)) as Hfresh.
  unfold pin_err_unmap, pin_err_detach, pin_err_buf_put, pin_err.
  destruct (pe_kmalloc env); simpl; [| by split].
  destruct (pe_dma_buf_get env) as [e | dbuf]; simpl.
  { rewrite release_head. split; [intros; lia | done]. }
  destruct (pe_dma_buf_attach env) as [e | att]; simpl.
  { rewrite !release_head. split; [intros; lia | done]. }
  destruct (pe_dma_buf_map env) as [e | [sg pa]]; simpl.
  { rewrite !release_head. split; [intros; lia | done]. }
  destruct (pe_idr_pre_get env); simpl;
    [| rewrite !release_head; by split].
  destruct (pe_idr_get_new env) as [| e]; simpl;
    [| rewrite !release_head; split; [intros; lia | done]].
  specialize (Hfresh {| dbuf := dbuf; attach := att; sgt := sg;
                        sgt_pa := pa |} fd).
  destruct (idr_get_new_above _ _ _) as [idr id] eqn:Halloc.
  unfold idr_get_new_above in Halloc. simpl in Hfresh.
  injection Halloc as <- <-.
  destruct (fd =? _) eqn:Hid; simpl.
  - apply Z.eqb_eq in Hid. split; [| done].
    intros [v Hv]. rewrite <- Hid in Hfresh. congruence.
  - rewrite !release_head. split; [done |].
    intros _. split; [| done].
    rewrite set_dma_idr_twice, (delete_insert_id _ _ _ Hfresh).
    apply set_dma_idr_same.
Qed.

Lemma pin_failure_unwinds_witness :
  (rpmsg_omx_pin_buffer omx_pinned 5 held_pinned pin_env_sample).1.1 < 0.
Proof.
  apply (pin_failure_unwinds omx_pinned 5 held_pinned pin_env_sample).
  eexists. by vm_compute.
Defined.

(** Pinning handle 5 twice: the second pin fails with -EINVAL and leaves
    the registry and the held resources as the first pin left them. *)
Lemma pin_twice_rejected :
  let r := rpmsg_omx_pin_buffer omx_pinned 5 held_pinned pin_env_sample in
  is_Some (dma_idr omx_pinned !! 5)
  ∧ r.1.1 = - EINVAL
  ∧ dma_idr r.1.2 !! 5 = dma_idr omx_pinned !! 5
  ∧ dma_idr r.1.2 !! 6 = None
  ∧ r.2 = held_pinned.
Proof.
  intros r. split; [eexists; by vm_compute |]. by vm_compute.
Qed.

(** ** The nominal scenario *)

(** open, then connect("svc-a") answered with status OK and address 7: the
    request goes from the local endpoint to the service's address, and the
    instance ends Connected with destination 7. *)
Example scenario_connect :
  let r := rpmsg_omx_connect channel_sample (omx_new 1024) svc_a
             (connect_env_sample [AsyncCb (conn_rsp_frame 0 7) 20 true]) in
  0 ≤ r.1.1
  ∧ state r.1.2 = OMX_CONNECTED
  ∧ dst r.1.2 = 7
  ∧ r.2 = [{| tx_src := 1024; tx_dst := 60; tx_data := connect_msg svc_a |}]
  ∧ load32 (connect_msg svc_a) 8 = 6
  ∧ length (connect_msg svc_a) = 60%nat.
Proof. by vm_compute. Qed.

(** A write of 10 bytes on the connected instance returns 10 and sends one
    raw-data frame of 22 bytes to address 7. *)
Example scenario_write :
  let r := rpmsg_omx_write omx_connected ten_bytes 10 write_env_sample in
  r.1.1 = 10
  ∧ (tx_dst <$> r.1.2) = [7]
  ∧ (tx_data <$> r.1.2) = [frame OMX_RAW_MSG 10 ten_bytes].
Proof. by vm_compute. Qed.

(** Frames are read in the order they arrived, each cut to the reader's
    buffer size. *)
Example scenario_read :
  let omx :=
    async_run omx_connected
      [AsyncCb (frame OMX_RAW_MSG 10 ten_bytes) 22 true;
       AsyncCb raw_frame 13 true] in
  let r1 := rpmsg_omx_read omx 0 4 read_env_sample in
  let r2 := rpmsg_omx_read r1.1.2 0 16 read_env_sample in
  let r3 := rpmsg_omx_read r2.1.2 O_NONBLOCK 16 read_env_sample in
  r1.1.1 = Some 4 ∧ r1.2 = [x00; x01; x02; x03]
  ∧ r2.1.1 = Some 1 ∧ r2.2 = [x2a]
  ∧ r3.1.1 = Some (- EAGAIN).
Proof. by vm_compute. Qed.

(** A read on an instance that never connected is refused, and so is a
    write. *)
Example scenario_not_connected :
  (rpmsg_omx_read (omx_new 1024) 0 16 read_env_sample).1.1
  = Some (- ENOTCONN)
  ∧ (rpmsg_omx_write (omx_new 1024) ten_bytes 10 write_env_sample)
    = (- ENOTCONN, [], []).
Proof. by vm_compute. Qed.

(** A blocking read on an empty queue sleeps until a frame arrives, and is
    released with -ENXIO by a crash. *)
Example scenario_blocking_read :
  (rpmsg_omx_read omx_connected 0 16
     {| re_during := [AsyncCb raw_frame 13 true]; re_signal := false;
        re_copy_ok := true |}).2 = [x2a]
  ∧ (rpmsg_omx_read omx_connected 0 16
       {| re_during := [AsyncCrash]; re_signal := false;
          re_copy_ok := true |}).1.1 = Some (- ENXIO)
  ∧ (rpmsg_omx_read omx_connected 0 16
       {| re_during := []; re_signal := true;
          re_copy_ok := true |}).1.1 = Some (- ERESTARTSYS)
  ∧ (rpmsg_omx_read omx_connected 0 16 read_env_sample).1.1 = None.
Proof. by vm_compute. Qed.

(** * Further properties of the driver *)

(** ** Bytes and words *)

Lemma to_s32_small z : 0 ≤ z < 2 ^ 31 → to_s32 z = z.
Proof.
  intros Hz. unfold to_s32, to_u32.
  rewrite Z.mod_small by lia.
  by rewrite (proj2 (Z.ltb_lt _ _)) by lia.
Qed.

Lemma to_u32_small z : 0 ≤ z < 2 ^ 32 → to_u32 z = z.
Proof. intros Hz. unfold to_u32. by apply Z.mod_small. Qed.

Lemma byte_val_of_Z z : byte_val (byte_of_Z z) = z mod 256.
Proof.
  unfold byte_val, byte_of_Z.
  pose proof (Z.mod_pos_bound z 256 ltac:(lia)) as Hb.
  destruct (Byte.of_N (Z.to_N (z mod 256))) as [b|] eqn:Hof; simpl.
  - rewrite (Byte.to_of_N _ Hof). lia.
  - apply Byte.of_N_None_iff in Hof. lia.
Qed.


Lemma byte_field_bit v k n :
  0 ≤ k → 0 ≤ n →
  Z.testbit (Z.shiftl (Z.shiftr v k mod 2 ^ 8) k) n
  = (k <=? n) && (n <? k + 8) && Z.testbit v n.
Proof.
  intros Hk Hn. rewrite Z.shiftl_spec by done.
  destruct (Z.leb_spec k n) as [Hle | Hlt]; simpl.
  - rewrite Z.testbit_mod_pow2, Z.shiftr_spec by lia.
    replace (n - k + k) with n by lia.
    f_equal. destruct (Z.ltb_spec (n - k) 8), (Z.ltb_spec n (k + 8)); lia.
  - apply Z.testbit_neg_r. lia.
Qed.

Lemma le32_decode v :
  Z.lor (v mod 256)
    (Z.lor (Z.shiftl (Z.shiftr v 8 mod 256) 8)
       (Z.lor (Z.shiftl (Z.shiftr v 16 mod 256) 16)
          (Z.shiftl (Z.shiftr v 24 mod 256) 24)))
  = v mod 2 ^ 32.
Proof.
  apply Z.bits_inj'. intros n Hn.
  change 256 with (2 ^ 8).
  rewrite !Z.lor_spec, !byte_field_bit by lia.
  rewrite !Z.testbit_mod_pow2 by lia.
  destruct (Z.testbit v n); rewrite ?andb_false_r, ?andb_true_r; [| done].
  destruct (Z.ltb_spec n 8), (Z.leb_spec 8 n), (Z.ltb_spec n (8 + 8)),
    (Z.leb_spec 16 n), (Z.ltb_spec n (16 + 8)), (Z.leb_spec 24 n),
    (Z.ltb_spec n (24 + 8)), (Z.ltb_spec n 32); simpl; try lia; reflexivity.
Qed.

Lemma load8_app_r (pre l : list byte) o :
  0 ≤ o → load8 (pre ++ l) (Z.of_nat (length pre) + o) = load8 l o.
Proof.
  intros Ho. unfold load8.
  rewrite (proj2 (Z.ltb_ge _ 0)) by lia.
  rewrite (proj2 (Z.ltb_ge o 0)) by lia.
  rewrite lookup_app_r by lia. do 2 f_equal. lia.
Qed.

Lemma load32_app_r (pre l : list byte) o :
  0 ≤ o → load32 (pre ++ l) (Z.of_nat (length pre) + o) = load32 l o.
Proof.
  intros Ho. unfold load32.
  rewrite <- !Z.add_assoc. by rewrite !load8_app_r by lia.
Qed.

Lemma load32_bytes_of_u32 v (rest : list byte) :
  load32 (bytes_of_u32 v ++ rest) 0 = to_u32 v.
Proof.
  unfold load32, bytes_of_u32, load8. simpl.
  rewrite !byte_val_of_Z. apply le32_decode.
Qed.

(** A word written into a frame is read back at its offset. *)
Lemma load32_frame_word (pre : list byte) v (rest : list byte) :
  load32 (pre ++ bytes_of_u32 v ++ rest) (Z.of_nat (length pre)) = to_u32 v.
Proof.
  rewrite <- (Z.add_0_r (Z.of_nat (length pre))).
  rewrite load32_app_r by lia. apply load32_bytes_of_u32.
Qed.

Lemma store_bytes_inbounds (mem : list byte) off src :
  (off + length src ≤ length mem)%nat →
  store_bytes mem off src = take off mem ++ src ++ drop (off + length src) mem.
Proof.
  intros Hin. unfold store_bytes. apply take_ge.
  rewrite !length_app, length_take, length_drop. lia.
Qed.

(** ** The dispatcher *)

Lemma read_bytes_inbounds (mem : list byte) off n :
  (off + n ≤ length mem)%nat →
  read_bytes mem off n = take n (drop off mem).
Proof.
  intros Hin. unfold read_bytes.
  rewrite take_app_le by (rewrite length_drop; lia). done.
Qed.

Lemma cb_guard_passes len hdr_len :
  sizeof_hdr ≤ len < 2 ^ 32 → len - sizeof_hdr ≤ hdr_len →
  (to_u32 len <? sizeof_hdr)
  || (hdr_len <? to_u32 (to_u32 len - sizeof_hdr)) = false.
Proof.
  intros Hlen Hdecl. unfold to_u32, sizeof_hdr in *.
  rewrite (Z.mod_small len) by lia.
  rewrite (Z.mod_small (len - 12)) by lia.
  apply orb_false_iff. rewrite !Z.ltb_ge. lia.
Qed.

Lemma rpmsg_omx_cb_raw (omx : rpmsg_omx_instance) (data : list byte)
    (len : Z) :
  sizeof_hdr ≤ len < 2 ^ 32 →
  len ≤ Z.of_nat (length data) →
  load32 data 0 = OMX_RAW_MSG →
  load32 data 8 = len - sizeof_hdr →
  rpmsg_omx_cb omx data len true
  = set_queue
      (queue omx
       ++ [take (Z.to_nat (len - sizeof_hdr)) (drop (Z.to_nat sizeof_hdr) data)])
      omx.
Proof.
  intros Hlen Hmem Htype Hdecl. unfold rpmsg_omx_cb.
  rewrite Hdecl, cb_guard_passes, Htype by lia. simpl.
  rewrite read_bytes_inbounds; [done |].
  unfold sizeof_hdr in *. lia.
Qed.

(** X1.  A raw-data frame whose header declares exactly the payload that
    was received is queued at the tail with that payload, byte for byte;
    nothing else in the instance changes. *)
Theorem cb_raw_frame_queued (omx : rpmsg_omx_instance) (data : list byte)
    (len : Z) :
  sizeof_hdr ≤ len < 2 ^ 32 →
  len ≤ Z.of_nat (length data) →
  load32 data 0 = OMX_RAW_MSG →
  load32 data 8 = len - sizeof_hdr →
  let omx' := rpmsg_omx_cb omx data len true in
  queue omx'
  = queue omx
    ++ [take (Z.to_nat (len - sizeof_hdr)) (drop (Z.to_nat sizeof_hdr) data)]
  ∧ state omx' = state omx ∧ dst omx' = dst omx ∧ ept omx' = ept omx
  ∧ reply_arrived omx' = reply_arrived omx ∧ dma_idr omx' = dma_idr omx.
Proof.
  intros Hlen Hmem Htype Hdecl. cbv zeta.
  by rewrite rpmsg_omx_cb_raw.
Qed.

Lemma cb_raw_frame_queued_witness :
  queue (rpmsg_omx_cb (omx_sample OMX_CONNECTED [[x01]]) raw_frame 13 true)
  = [[x01]] ++ [[x2a]].
Proof.
  apply (cb_raw_frame_queued (omx_sample OMX_CONNECTED [[x01]]) raw_frame 13);
    [by vm_compute | by vm_compute | reflexivity | reflexivity].
Defined.

(** X2.  A frame shorter than the header, a frame of a type other than
    connect response and raw data, a connect response that declares
    fewer than 8 payload bytes, and a raw frame for which no skb can be
    allocated are dropped: the instance is left exactly as it was. *)
Theorem cb_malformed_dropped (omx : rpmsg_omx_instance) (data : list byte)
    (len : Z) (alloc_ok : bool) :
  0 ≤ len < sizeof_hdr
  ∨ ((load32 data 0 ≠ OMX_CONN_RSP) ∧ (load32 data 0 ≠ OMX_RAW_MSG))
  ∨ (load32 data 0 = OMX_CONN_RSP ∧ load32 data 8 < sizeof_conn_rsp)
  ∨ (load32 data 0 = OMX_RAW_MSG ∧ alloc_ok = false) →
  rpmsg_omx_cb omx data len alloc_ok = omx.
Proof.
  unfold rpmsg_omx_cb.
  intros [Hshort | [[Hn1 Hn2] | [[Ht Hl] | [Ht ->]]]].
  - assert ((to_u32 len <? sizeof_hdr) = true) as ->; [| done].
    apply Z.ltb_lt. unfold to_u32, sizeof_hdr in *.
    rewrite Z.mod_small; lia.
  - rewrite (proj2 (Z.eqb_neq _ _) Hn1), (proj2 (Z.eqb_neq _ _) Hn2).
    by case_match.
  - rewrite Ht, (proj2 (Z.ltb_lt _ _) Hl). by case_match.
  - rewrite Ht. by case_match.
Qed.

Lemma cb_malformed_dropped_witness :
  rpmsg_omx_cb (omx_sample OMX_CONNECTED []) [x05; x00; x00] 3 true
  = omx_sample OMX_CONNECTED [].
Proof.
  apply (cb_malformed_dropped (omx_sample OMX_CONNECTED []) [x05; x00; x00]
           3 true).
  left. by vm_compute.
Defined.

(** X3.  A connect response that passes the guards always records the
    offered address as the destination and releases exactly one completion
    token, whatever the status and whatever the state was, so that a stray
    response re-targets an established connection; an error status fails
    the connection even when it was Connected; a success status connects
    it unless it was Failed.  Queue, endpoint and registry are untouched.
    The token counter is an [unsigned int]: it goes up by one, and from
    [UINT_MAX] it wraps to 0. *)
Theorem cb_conn_rsp_effect (omx : rpmsg_omx_instance) (data : list byte)
    (len : Z) (alloc_ok : bool) :
  sizeof_hdr ≤ len < 2 ^ 32 →
  load32 data 0 = OMX_CONN_RSP →
  len - sizeof_hdr ≤ load32 data 8 →
  sizeof_conn_rsp ≤ load32 data 8 →
  let omx' := rpmsg_omx_cb omx data len alloc_ok in
  dst omx' = load32 data (sizeof_hdr + 4)
  ∧ reply_arrived omx' = to_u32 (reply_arrived omx + 1)
  ∧ (0 ≤ reply_arrived omx < UINT_MAX →
     reply_arrived omx' = reply_arrived omx + 1)
  ∧ state omx'
    = (if bool_decide (load32 data sizeof_hdr = 0)
       then if bool_decide (state omx = OMX_FAIL)
            then OMX_FAIL else OMX_CONNECTED
       else OMX_FAIL)
  ∧ queue omx' = queue omx ∧ ept omx' = ept omx
  ∧ dma_idr omx' = dma_idr omx.
Proof.
  intros Hlen Htype Hdecl Hrsp. simpl. unfold rpmsg_omx_cb.
  rewrite cb_guard_passes, Htype by done. simpl.
  rewrite (proj2 (Z.ltb_ge _ _) Hrsp).
  assert (0 ≤ reply_arrived omx < UINT_MAX →
          to_u32 (reply_arrived omx + 1) = reply_arrived omx + 1) as Hwrap.
  { intros Hr. apply to_u32_small. unfold UINT_MAX in Hr. lia. }
  destruct (decide (load32 data sizeof_hdr = 0)) as [Hst | Hst].
  - rewrite Hst. simpl.
    destruct (state omx) eqn:Hs; simpl; rewrite ?Hs; done.
  - rewrite (proj2 (Z.eqb_neq _ _) Hst). simpl.
    by rewrite bool_decide_eq_false_2.
Qed.

Lemma cb_conn_rsp_effect_witness :
  dst (rpmsg_omx_cb (omx_sample OMX_CONNECTED []) (conn_rsp_frame 0 9) 20
         true) = 9.
Proof.
  apply (cb_conn_rsp_effect (omx_sample OMX_CONNECTED [])
           (conn_rsp_frame 0 9) 20 true); by vm_compute.
Defined.

Lemma rpmsg_omx_cb_queue omx data len alloc_ok :
  queue omx `prefix_of` queue (rpmsg_omx_cb omx data len alloc_ok)
  ∧ ept (rpmsg_omx_cb omx data len alloc_ok) = ept omx
  ∧ dma_idr (rpmsg_omx_cb omx data len alloc_ok) = dma_idr omx.
Proof.
  unfold rpmsg_omx_cb. repeat case_match; simpl; try done.
  split; [| done]. by apply prefix_app_r.
Qed.

Lemma async_run_queue (evs : list async_event) (omx : rpmsg_omx_instance) :
  queue omx `prefix_of` queue (async_run omx evs)
  ∧ ept (async_run omx evs) = ept omx
  ∧ dma_idr (async_run omx evs) = dma_idr omx.
Proof.
  revert omx. induction evs as [|ev evs IH]; intros omx; simpl; [done |].
  destruct (IH (async_step omx ev)) as (Hq & He & Hd).
  assert (queue omx `prefix_of` queue (async_step omx ev)
          ∧ ept (async_step omx ev) = ept omx
          ∧ dma_idr (async_step omx ev) = dma_idr omx) as (Hq' & He' & Hd').
  { destruct ev; simpl; [apply rpmsg_omx_cb_queue | done]. }
  split; [by etrans | split; congruence].
Qed.

(** X4.  The dispatcher and the crash path only ever append to the inbound
    queue: whatever frames arrive and whether or not the remote processor
    crashes, the frames already queued stay queued, in order, at the head;
    the endpoint and the buffer registry are not touched either. *)
Theorem async_run_queue_prefix (evs : list async_event)
    (omx : rpmsg_omx_instance) :
  queue omx `prefix_of` queue (async_run omx evs)
  ∧ ept (async_run omx evs) = ept omx
  ∧ dma_idr (async_run omx evs) = dma_idr omx.
Proof. apply async_run_queue. Qed.

(** ** read *)

Lemma rpmsg_omx_read_head (omx : rpmsg_omx_instance) (skb : list byte)
    (rest : list (list byte)) (f_flags len : Z) (env : read_env) :
  state omx = OMX_CONNECTED →
  queue omx = skb :: rest →
  0 ≤ len < 2 ^ 32 →
  Z.of_nat (length skb) < 2 ^ 31 →
  let n := Z.min len (Z.of_nat (length skb)) in
  rpmsg_omx_read omx f_flags len env
  = if re_copy_ok env
    then (Some n, set_queue rest omx, take (Z.to_nat n) skb)
    else (Some (- EFAULT), set_queue rest omx, []).
Proof.
  intros Hs Hq Hlen Hskb n. unfold rpmsg_omx_read, read_dequeue.
  rewrite Hs, Hq. simpl.
  rewrite to_u32_small by done. fold n.
  rewrite to_s32_small by (unfold n; lia). done.
Qed.

(** X5.  On a Connected instance with a non-empty queue, a read (blocking
    or not) removes exactly the oldest frame and returns its first
    min(len, size) bytes; what does not fit the caller's buffer is
    dropped with the frame.  When the copy to the caller faults the read
    returns -EFAULT and the frame is lost all the same. *)
Theorem read_oldest_frame (omx : rpmsg_omx_instance) (skb : list byte)
    (rest : list (list byte)) (f_flags len : Z) (env : read_env) :
  state omx = OMX_CONNECTED →
  queue omx = skb :: rest →
  0 ≤ len < 2 ^ 32 →
  Z.of_nat (length skb) < 2 ^ 31 →
  let n := Z.min len (Z.of_nat (length skb)) in
  rpmsg_omx_read omx f_flags len env
  = if re_copy_ok env
    then (Some n, set_queue rest omx, take (Z.to_nat n) skb)
    else (Some (- EFAULT), set_queue rest omx, []).
Proof. apply rpmsg_omx_read_head. Qed.

Lemma read_oldest_frame_witness :
  rpmsg_omx_read (omx_sample OMX_CONNECTED [ten_bytes; [x2a]]) 0 4
    read_env_sample
  = (Some 4, set_queue [[x2a]] (omx_sample OMX_CONNECTED [ten_bytes; [x2a]]),
     [x00; x01; x02; x03]).
Proof.
  apply (read_oldest_frame (omx_sample OMX_CONNECTED [ten_bytes; [x2a]])
           ten_bytes [[x2a]] 0 4 read_env_sample);
    [reflexivity | reflexivity | by vm_compute | by vm_compute].
Defined.

Lemma frame_fields type hdr_len payload :
  load32 (frame type hdr_len payload) 0 = to_u32 type
  ∧ load32 (frame type hdr_len payload) 8 = to_u32 hdr_len
  ∧ drop 12 (frame type hdr_len payload) = payload
  ∧ length (frame type hdr_len payload) = (12 + length payload)%nat.
Proof.
  unfold frame. split; [apply load32_bytes_of_u32 |].
  split; [| split; reflexivity].
  apply (load32_frame_word (bytes_of_u32 type ++ bytes_of_u32 0)
           hdr_len payload).
Qed.

Lemma deliver_queue omx payload :
  sizeof_hdr + Z.of_nat (length payload) < 2 ^ 32 →
  async_step omx (deliver payload) = set_queue (queue omx ++ [payload]) omx.
Proof.
  intros Hlen. unfold deliver. simpl.
  destruct (frame_fields OMX_RAW_MSG (Z.of_nat (length payload)) payload)
    as (Ht & Hl & Hd & Hn).
  unfold sizeof_hdr in *.
  rewrite rpmsg_omx_cb_raw; unfold sizeof_hdr.
  - change (Z.to_nat 12) with 12%nat. rewrite Hd.
    replace (12 + Z.of_nat (length payload) - 12)
      with (Z.of_nat (length payload)) by lia.
    rewrite Nat2Z.id. by rewrite firstn_all.
  - lia.
  - rewrite Hn. lia.
  - by rewrite Ht.
  - rewrite Hl, to_u32_small; lia.
Qed.

Lemma deliver_all_queue payloads : ∀ omx,
  Forall (λ p, sizeof_hdr + Z.of_nat (length p) < 2 ^ 32) payloads →
  async_run omx (deliver <$> payloads)
  = set_queue (queue omx ++ payloads) omx.
Proof.
  induction payloads as [|p ps IH]; intros omx Hall.
  - simpl. rewrite app_nil_r. by destruct omx.
  - apply Forall_cons in Hall as [Hp Hps].
    rewrite fmap_cons.
    change (async_run omx (deliver p :: (deliver <$> ps)))
      with (async_run (async_step omx (deliver p)) (deliver <$> ps)).
    rewrite deliver_queue by done. rewrite IH by done. simpl.
    by rewrite <- app_assoc.
Qed.

Lemma read_all_queue q : ∀ omx len,
  state omx = OMX_CONNECTED →
  queue omx = q →
  0 ≤ len < 2 ^ 31 →
  Forall (λ p, Z.of_nat (length p) ≤ len) q →
  read_all omx (length q) len = q.
Proof.
  induction q as [|p q IH]; intros omx len Hs Hq Hlen Hall; simpl; [done |].
  apply Forall_cons in Hall as [Hp Hall].
  pose proof (rpmsg_omx_read_head omx p q O_NONBLOCK len read_env_sample Hs Hq
                ltac:(lia) ltac:(lia)) as Hr.
  simpl in Hr. rewrite Hr. simpl.
  rewrite Z.min_r by lia. rewrite Nat2Z.id, firstn_all.
  f_equal. by apply IH.
Qed.

(** X6.  Frames come out in the order they went in.  On a Connected
    instance, after the dispatcher has delivered any sequence of
    well-formed raw-data frames, as many reads as there are queued frames
    return the frames queued before, then the delivered payloads, in
    order, unchanged, none lost and none twice (the reader's buffer being
    large enough for each). *)
Theorem read_all_fifo (omx : rpmsg_omx_instance)
    (payloads : list (list byte)) (len : Z) :
  state omx = OMX_CONNECTED →
  0 ≤ len < 2 ^ 31 →
  Forall (λ p, Z.of_nat (length p) ≤ len) (queue omx ++ payloads) →
  read_all (async_run omx (deliver <$> payloads))
    (length (queue omx) + length payloads) len
  = queue omx ++ payloads.
Proof.
  intros Hs Hlen Hall.
  rewrite deliver_all_queue.
  - rewrite <- length_app. by apply read_all_queue.
  - apply Forall_app in Hall as [_ Hall].
    eapply Forall_impl; [apply Hall |]. simpl. intros p Hp.
    unfold sizeof_hdr. lia.
Qed.

Lemma read_all_fifo_witness :
  read_all
    (async_run (omx_sample OMX_CONNECTED [[x01]])
       (deliver <$> [ten_bytes; [x2a]])) (1 + 2) 16
  = [[x01]] ++ [ten_bytes; [x2a]].
Proof.
  apply (read_all_fifo (omx_sample OMX_CONNECTED [[x01]]) [ten_bytes; [x2a]]
           16); [reflexivity | by vm_compute |].
  simpl. repeat constructor; by vm_compute.
Defined.

(** ** Frame assembly *)

Lemma store_bytes_app (pre old rest src : list byte) :
  length old = length src →
  store_bytes (pre ++ old ++ rest) (length pre) src = pre ++ src ++ rest.
Proof.
  intros Hlen. rewrite store_bytes_inbounds by (rewrite !length_app; lia).
  rewrite take_app_length. do 2 f_equal.
  rewrite <- Hlen, <- length_app, (app_assoc pre old rest).
  apply drop_app_length.
Qed.

Lemma store32_app (pre old rest : list byte) v off :
  length old = 4%nat →
  off = Z.of_nat (length pre) →
  store32 (pre ++ old ++ rest) off v = pre ++ bytes_of_u32 v ++ rest.
Proof.
  intros Hlen ->. unfold store32.
  rewrite (proj2 (Z.leb_le 0 _)) by lia.
  rewrite (proj2 (Z.leb_le _ _)) by (rewrite !length_app; lia).
  simpl. rewrite Nat2Z.id. by apply store_bytes_app.
Qed.

Lemma cstring_pad (s : list byte) k :
  cstring (cstring s ++ replicate k x00) = cstring s.
Proof.
  induction s as [|b s IH]; simpl.
  - by destruct k.
  - destruct (Byte.eqb b x00) eqn:Hb; simpl.
    + by destruct k.
    + by rewrite Hb, IH.
Qed.

(** X7.  The connect request on the wire.  For a name of at most 47
    characters the message is 60 bytes: the type [OMX_CONN_REQ], zero
    flags, the length of the name with its terminator, then the name,
    NUL-padded to 48 bytes; the receiver reads back the header fields and
    the very name that was given. *)
Theorem connect_msg_layout (omxname : list byte) :
  strlen omxname ≤ 47 →
  let msg := connect_msg omxname in
  msg = bytes_of_u32 OMX_CONN_REQ ++ bytes_of_u32 0
        ++ bytes_of_u32 (strlen omxname + 1)
        ++ cstring omxname ++ replicate (48 - length (cstring omxname)) x00
  ∧ length msg = 60%nat
  ∧ load32 msg 0 = OMX_CONN_REQ
  ∧ load32 msg 8 = strlen omxname + 1
  ∧ cstring (drop 12 msg) = cstring omxname.
Proof.
  intros Hn. unfold strlen in Hn.
  set (n := length (cstring omxname)) in *.
  assert (connect_msg omxname
          = bytes_of_u32 OMX_CONN_REQ ++ bytes_of_u32 0
            ++ bytes_of_u32 (strlen omxname + 1)
            ++ cstring omxname ++ replicate (48 - n) x00) as Hmsg.
  { unfold connect_msg.
    change (replicate (Z.to_nat (sizeof_hdr + sizeof_conn_req)) x00)
      with ([] ++ replicate 4 x00 ++ replicate 56 x00).
    rewrite (store32_app [] (replicate 4 x00) (replicate 56 x00) _ 0)
      by done.
    change ([] ++ bytes_of_u32 OMX_CONN_REQ ++ replicate 56 x00)
      with (bytes_of_u32 OMX_CONN_REQ ++ replicate 4 x00 ++ replicate 52 x00).
    rewrite (store32_app (bytes_of_u32 OMX_CONN_REQ) (replicate 4 x00)
               (replicate 52 x00) 0 4) by done.
    change (replicate 52 x00) with (replicate 4 x00 ++ replicate 48 x00).
    rewrite (app_assoc (bytes_of_u32 OMX_CONN_REQ) (bytes_of_u32 0)).
    rewrite (store32_app (bytes_of_u32 OMX_CONN_REQ ++ bytes_of_u32 0)
               (replicate 4 x00) (replicate 48 x00) _ 8) by done.
    rewrite (app_assoc _ (bytes_of_u32 (strlen omxname + 1))).
    replace (replicate 48 x00)
      with (replicate (n + 1) x00 ++ replicate (48 - n - 1) x00)
      by (rewrite <- replicate_add; f_equal; lia).
    change (Z.to_nat sizeof_hdr)
      with (length ((bytes_of_u32 OMX_CONN_REQ ++ bytes_of_u32 0)
                    ++ bytes_of_u32 (strlen omxname + 1))).
    rewrite store_bytes_app
      by (rewrite length_app, length_replicate; simpl; lia).
    rewrite <- !app_assoc. do 4 f_equal.
    fold n. change [x00] with (replicate 1 x00).
    rewrite <- replicate_add. f_equal. lia. }
  cbv zeta. rewrite Hmsg. split; [done |].
  split; [| split; [| split]].
  - rewrite !length_app, length_replicate. simpl. fold n. lia.
  - by rewrite load32_bytes_of_u32.
  - rewrite (app_assoc (bytes_of_u32 OMX_CONN_REQ)).
    rewrite (load32_frame_word (bytes_of_u32 OMX_CONN_REQ ++ bytes_of_u32 0)).
    apply to_u32_small. unfold strlen. fold n. lia.
  - change (drop 12 ?l) with (drop 12 l).
    rewrite !app_assoc, <- (app_assoc _ (cstring omxname)).
    rewrite (drop_app_length'
               ((bytes_of_u32 OMX_CONN_REQ ++ bytes_of_u32 0)
                ++ bytes_of_u32 (strlen omxname + 1))) by done.
    apply cstring_pad.
Qed.

Lemma connect_msg_layout_witness :
  load32 (connect_msg svc_a) 8 = strlen svc_a + 1.
Proof.
  apply (connect_msg_layout svc_a). by vm_compute.
Defined.

(** ** connect: the return value *)



(** Three crashes of an instance that stays listed: the third
    [complete_all] wraps its completion counter. *)
Example crash_thrice_wraps :
  reply_arrived (async_run (omx_new 1024) [AsyncCrash; AsyncCrash])
  = 4294967294
  ∧ reply_arrived
      (async_run (omx_new 1024) [AsyncCrash; AsyncCrash; AsyncCrash])
    = 2147483645.
Proof. by vm_compute. Qed.





(** X9.  A signal that arrives while an Unconnected instance waits for the
    reply, no response and no crash coming during the call, ends the
    connect with -ERESTARTSYS; the request has been handed to the
    transport and the connection stays Unconnected. *)
Theorem connect_interrupted (addr : Z) (history : list event)
    (rp : rpmsg_channel) (omxname : list byte) (env : connect_env) :
  let omx := run (omx_new addr) history in
  let r := rpmsg_omx_connect rp omx omxname env in
  state omx = OMX_UNCONNECTED →
  ce_send env = KOk →
  forallb quiet (ce_during env ++ ce_window env) = true →
  ce_signal env = true →
  r.1.1 = - ERESTARTSYS
  ∧ state r.1.2 = OMX_UNCONNECTED
  ∧ r.2 = [{| tx_src := ept omx; tx_dst := rp_dst rp;
              tx_data := connect_msg omxname |}].
Proof.
  intros omx r Hs Hsend Hq Hsig. subst r.
  unfold rpmsg_omx_connect. rewrite Hs, Hsend. simpl.
  rewrite forallb_app in Hq. apply andb_true_iff in Hq as [Hq1 Hq2].
  destruct (quiet_run (ce_during env) omx Hq1) as [Hst Hre].
  pose proof (run_pending history _ (omx_new_pending addr) Hs) as Hp.
  change (reply_arrived omx = 0) in Hp.
  unfold wait_for_completion_interruptible_timeout.
  rewrite Hre, Hp, Hsig. simpl.
  destruct (quiet_run (ce_window env) (async_run omx (ce_during env)) Hq2)
    as [Hst2 _].
  by rewrite Hst2, Hst, Hs.
Qed.

Lemma connect_interrupted_witness :
  (rpmsg_omx_connect channel_sample (run (omx_new 1024) []) svc_a
     {| ce_send := KOk; ce_during := [deliver [x2a]];
        ce_left := 1%positive; ce_signal := true;
        ce_window := [deliver [x2a]] |}).1.1
  = - ERESTARTSYS.
Proof.
  apply (connect_interrupted 1024 [] channel_sample svc_a
           {| ce_send := KOk; ce_during := [deliver [x2a]];
              ce_left := 1%positive; ce_signal := true;
              ce_window := [deliver [x2a]] |}); reflexivity.
Defined.

(** ** write *)

Lemma length_mread (m : memory) off n : length (mread m off n) = n.
Proof. unfold mread. by rewrite length_fmap, length_seq. Qed.

Lemma lookup_mread (m : memory) off n (i : nat) :
  (i < n)%nat → mread m off n !! i = Some (m (off + Z.of_nat i)).
Proof.
  intros Hi. unfold mread.
  by rewrite list_lookup_fmap, lookup_seq_lt by done.
Qed.

Lemma mread_ext (m m' : memory) off n :
  (∀ i : nat, (i < n)%nat → m (off + Z.of_nat i) = m' (off + Z.of_nat i)) →
  mread m off n = mread m' off n.
Proof.
  intros Hext. unfold mread. apply list_fmap_ext.
  intros i x Hx. apply lookup_seq in Hx as [-> Hi]. by apply Hext.
Qed.

Lemma mread_app (m : memory) off n1 n2 :
  mread m off (n1 + n2) = mread m off n1 ++ mread m (off + Z.of_nat n1) n2.
Proof.
  apply list_eq. intros i.
  destruct (decide (i < n1)%nat) as [H1 | H1].
  - rewrite lookup_app_l by (rewrite length_mread; lia).
    by rewrite !lookup_mread by lia.
  - rewrite lookup_app_r by (rewrite length_mread; lia).
    rewrite length_mread.
    destruct (decide (i < n1 + n2)%nat) as [H2 | H2].
    + rewrite !lookup_mread by lia. do 2 f_equal. lia.
    + by rewrite !lookup_ge_None_2 by (rewrite length_mread; lia).
Qed.

Lemma mread_mstore_bytes (m : memory) off src :
  mread (mstore_bytes m off src) off (length src) = src.
Proof.
  apply list_eq. intros i.
  destruct (decide (i < length src)%nat) as [Hi | Hi].
  - rewrite lookup_mread by done. unfold mstore_bytes.
    rewrite (proj2 (Z.leb_le _ _)) by lia.
    replace (off + Z.of_nat i - off) with (Z.of_nat i) by lia.
    rewrite Nat2Z.id.
    by destruct (lookup_lt_is_Some_2 src i Hi) as [x ->].
  - rewrite lookup_ge_None_2 by (rewrite length_mread; lia).
    symmetry. apply lookup_ge_None_2. lia.
Qed.

Lemma mread_mstore_bytes_other (m : memory) off src o n :
  o + Z.of_nat n ≤ off ∨ off + Z.of_nat (length src) ≤ o →
  mread (mstore_bytes m off src) o n = mread m o n.
Proof.
  intros Ho. apply mread_ext. intros i Hi.
  apply mstore_bytes_other. lia.
Qed.


Lemma length_dma_buf_ref got : (length (dma_buf_ref got) ≤ 1)%nat.
Proof. destruct got; simpl; lia. Qed.

Lemma _rpmsg_omx_buffer_get_refs omx buffer tr get :
  (_rpmsg_omx_buffer_get omx buffer tr get).2
  = dma_buf_ref (get (to_s32 buffer)).
Proof.
  unfold _rpmsg_omx_buffer_get, rpmsg_omx_dma_find.
  repeat case_match; simplify_eq; done.
Qed.

(** The rewrite returns 0 or a negative errno and leaves at most one
    reference behind for each handle it looked up. *)
Lemma map_buf_loop_ret omx tr get n : ∀ mem b,
  (map_buf_loop n omx tr get mem b).1.1 ≤ 0
  ∧ (length (map_buf_loop n omx tr get mem b).2 ≤ n)%nat.
Proof.
  induction n as [|n IH]; intros mem b; simpl; [split; [done | lia] |].
  pose proof (_rpmsg_omx_buffer_get_error omx (mload32 mem b) tr get) as Herr.
  pose proof (_rpmsg_omx_buffer_get_refs omx (mload32 mem b) tr get) as Href.
  destruct (_rpmsg_omx_buffer_get omx (mload32 mem b) tr get)
    as [[ret da] refs].
  simpl in Herr, Href.
  pose proof (length_dma_buf_ref (get (to_s32 (mload32 mem b)))) as Hone.
  rewrite <- Href in Hone.
  destruct (ret =? 0) eqn:Hret; simpl.
  - destruct (IH (mstore32 mem b da) (b + 4)) as [H1 H2].
    destruct (map_buf_loop n omx tr get _ _) as [[ret' mem'] refs'].
    simpl in *. split; [done |]. rewrite length_app. lia.
  - apply Z.eqb_neq in Hret. specialize (Herr Hret). split; lia.
Qed.

Lemma _rpmsg_omx_map_buf_ret omx tr get mem packet :
  (_rpmsg_omx_map_buf omx tr get mem packet).1.1 ≤ 0
  ∧ (length (_rpmsg_omx_map_buf omx tr get mem packet).2 ≤ 3)%nat.
Proof.
  unfold _rpmsg_omx_map_buf.
  destruct ((_ <? _) || (_ >? _)) eqn:Hguard; [simpl; split; [done | lia] |].
  apply orb_false_iff in Hguard as [_ Hhi].
  unfold RPC_OMX_MAP_INFO_THREE_BUF in Hhi.
  rewrite Z.gtb_ltb, Z.ltb_ge in Hhi.
  set (n := Z.to_nat _).
  destruct (map_buf_loop_ret omx tr get n mem
              (packet + offsetof_packet_data
               + to_s32 (mload32 mem (packet + offsetof_packet_data + 4))))
    as [H1 H2].
  split; [done |]. unfold n in *. lia.
Qed.

(** X10.  Whatever the caller passes, a write hands at most one frame to
    the transport; that frame is at most 512 bytes long, goes from the
    instance's endpoint to its destination, and the value returned never
    exceeds the 500-byte payload cap.  At most three dma-buf references
    are left behind, one for each handle looked up. *)
Theorem write_bounds (omx : rpmsg_omx_instance) (ubuf : list byte) (len : Z)
    (env : write_env) :
  let r := rpmsg_omx_write omx ubuf len env in
  r.1.1 ≤ sizeof_kbuf - sizeof_hdr
  ∧ (length r.1.2 ≤ 1)%nat
  ∧ Forall (λ f, (length (tx_data f) ≤ 512)%nat
                 ∧ tx_src f = ept omx ∧ tx_dst f = dst omx) r.1.2
  ∧ (length r.2 ≤ 3)%nat.
Proof.
  simpl. unfold rpmsg_omx_write.
  case_bool_decide; simpl;
    [split; [by vm_compute | split; [lia | split; [constructor | lia]]] |].
  destruct (copy_from_user _ _) as [bytes|]; simpl;
    [| split; [by vm_compute | split; [lia | split; [constructor | lia]]]].
  pose proof (_rpmsg_omx_map_buf_ret omx (we_pa_to_da env)
                (we_dma_buf_get env) (write_kbuf env bytes) sizeof_hdr)
    as [Hret Hrefs].
  destruct (_rpmsg_omx_map_buf _ _ _ _ _) as [[ret kbuf] refs]. simpl in *.
  destruct (ret <? 0) eqn:Hneg; simpl.
  { apply Z.ltb_lt in Hneg. unfold sizeof_kbuf, sizeof_hdr.
    split; [lia | split; [lia | split; [constructor | done]]]. }
  case_bool_decide; simpl;
    [split; [by vm_compute | split; [lia | split; [constructor | done]]] |].
  assert (Forall (λ f, (length (tx_data f) ≤ 512)%nat
                       ∧ tx_src f = ept omx ∧ tx_dst f = dst omx)
            [{| tx_src := ept omx; tx_dst := dst omx;
                tx_data :=
                  mread (mstore32 (mstore32 (mstore32 kbuf 0 OMX_RAW_MSG) 4 0)
                           8 (Z.min (sizeof_kbuf - sizeof_hdr) (to_u32 len)))
                    0 (Z.to_nat (Z.min (sizeof_kbuf - sizeof_hdr)
                                   (to_u32 len) + sizeof_hdr)) |}])
    as Hframe.
  { apply Forall_singleton. simpl. split; [| done].
    rewrite length_mread. unfold sizeof_kbuf, sizeof_hdr. lia. }
  destruct (negb (kret_val (we_send env) =? 0)) eqn:Hsend; simpl.
  - destruct (we_send env); simpl in *; [done |].
    unfold sizeof_kbuf, sizeof_hdr.
    split; [lia | split; [lia | split; done]].
  - split; [lia | split; [lia | split; done]].
Qed.

(** A write on a Failed connection never reaches the transport and returns
    a negative errno, whatever the payload. *)
Lemma write_on_failed (omx : rpmsg_omx_instance) (ubuf : list byte)
    (len : Z) (env : write_env) :
  state omx = OMX_FAIL →
  (rpmsg_omx_write omx ubuf len env).1.2 = []
  ∧ (rpmsg_omx_write omx ubuf len env).1.1 < 0.
Proof.
  intros Hs. unfold rpmsg_omx_write. rewrite Hs. simpl.
  destruct (copy_from_user _ _) as [bytes|]; simpl; [| done].
  destruct (_rpmsg_omx_map_buf _ _ _ _ _) as [[ret kbuf] refs].
  destruct (ret <? 0) eqn:Hneg; simpl; [| done].
  by apply Z.ltb_lt in Hneg.
Qed.

(** The first [12 + length tail] bytes of a memory in which the three
    header words have been stored over a buffer that holds [tail] from
    offset 12 on. *)
Lemma mread_header (m : memory) a b c (tail : list byte) :
  mread m 12 (length tail) = tail →
  mread (mstore32 (mstore32 (mstore32 m 0 a) 4 b) 8 c) 0 (12 + length tail)
  = bytes_of_u32 a ++ bytes_of_u32 b ++ bytes_of_u32 c ++ tail.
Proof.
  intros Htail.
  change (12 + length tail)%nat with (4 + (4 + (4 + length tail)))%nat.
  rewrite !mread_app.
  change (0 + Z.of_nat 4 + Z.of_nat 4 + Z.of_nat 4) with 12.
  change (0 + Z.of_nat 4 + Z.of_nat 4) with 8.
  change (0 + Z.of_nat 4) with 4.
  unfold mstore32.
  set (m1 := mstore_bytes m 0 (bytes_of_u32 a)).
  set (m2 := mstore_bytes m1 4 (bytes_of_u32 b)).
  set (m3 := mstore_bytes m2 8 (bytes_of_u32 c)).
  assert (mread m3 0 4 = bytes_of_u32 a) as ->.
  { unfold m3, m2. rewrite !mread_mstore_bytes_other by (simpl; lia).
    apply (mread_mstore_bytes m 0 (bytes_of_u32 a)). }
  assert (mread m3 4 4 = bytes_of_u32 b) as ->.
  { unfold m3. rewrite mread_mstore_bytes_other by (simpl; lia).
    apply (mread_mstore_bytes m1 4 (bytes_of_u32 b)). }
  assert (mread m3 8 4 = bytes_of_u32 c) as ->
    by apply (mread_mstore_bytes m2 8 (bytes_of_u32 c)).
  assert (mread m3 12 (length tail) = tail) as ->; [| done].
  unfold m3, m2, m1. by rewrite !mread_mstore_bytes_other by (simpl; lia).
Qed.

(** X11.  A write without embedded handles on a Connected instance hands
    the transport exactly one raw-data frame, from the endpoint to the
    connected destination: a header of type [OMX_RAW_MSG] with zero flags
    and the payload length, followed by the caller's bytes; input beyond
    500 bytes is cut off, not rejected.  The call returns the number of
    bytes taken, or the transport's error, and takes no dma-buf
    reference. *)
Theorem write_sends_frame (omx : rpmsg_omx_instance) (ubuf : list byte)
    (len : Z) (env : write_env) :
  state omx = OMX_CONNECTED →
  0 ≤ len < 2 ^ 32 →
  let use := Z.min (sizeof_kbuf - sizeof_hdr) len in
  use ≤ Z.of_nat (length ubuf) →
  mload32 (write_kbuf env (take (Z.to_nat use) ubuf))
    (sizeof_hdr + offsetof_packet_data) = 0 →
  rpmsg_omx_write omx ubuf len env
  = (match we_send env with KOk => use | KErr e => - Z.pos e end,
     [{| tx_src := ept omx; tx_dst := dst omx;
         tx_data := frame OMX_RAW_MSG use (take (Z.to_nat use) ubuf) |}],
     []).
Proof.
  intros Hs Hlen use Huse Hcount.
  unfold rpmsg_omx_write. rewrite Hs. simpl.
  rewrite to_u32_small by done. fold use.
  unfold copy_from_user. rewrite (proj2 (Z.leb_le _ _) Huse).
  set (bytes := take (Z.to_nat use) ubuf) in *.
  assert (length bytes = Z.to_nat use) as Hbytes.
  { unfold bytes. rewrite length_take. lia. }
  assert (0 ≤ use ≤ 500) as Hrange.
  { unfold use, sizeof_kbuf, sizeof_hdr. lia. }
  unfold _rpmsg_omx_map_buf. rewrite Hcount. simpl.
  replace (Z.to_nat (use + sizeof_hdr)) with (12 + length bytes)%nat
    by (unfold sizeof_hdr; lia).
  rewrite mread_header by apply mread_mstore_bytes.
  fold (frame OMX_RAW_MSG use bytes).
  destruct (we_send env); simpl; done.
Qed.

Lemma write_sends_frame_witness :
  rpmsg_omx_write omx_connected ten_bytes 10 write_env_sample
  = (10, [{| tx_src := 1024; tx_dst := 7;
             tx_data := frame OMX_RAW_MSG 10 ten_bytes |}], []).
Proof.
  apply (write_sends_frame omx_connected ten_bytes 10 write_env_sample);
    by vm_compute.
Defined.

(** ** The embedded-handle rewrite *)





(** ** The registry: pin, translate, unpin *)

Lemma idr_first_free_unused (idr : gmap Z rpmsg_omx_dma_info) n k :
  idr !! k = None → idr_first_free n idr k = k.
Proof. intros Hk. destruct n; simpl; [done |]. by rewrite Hk. Qed.

Lemma pin_unregistered omx fd held dma :
  dma_idr omx !! fd = None →
  rpmsg_omx_pin_buffer omx fd held (pin_env_ok dma)
  = (0, set_dma_idr (<[fd := dma]> (dma_idr omx)) omx,
     dma_resources dma ++ held).
Proof.
  intros Hfd. unfold rpmsg_omx_pin_buffer, idr_get_new_above. simpl.
  rewrite idr_first_free_unused by done.
  rewrite Z.eqb_refl. simpl. by destruct dma.
Qed.

(** X13.  Pinning a handle that is not registered, every kernel service
    succeeding, registers the buffer under the handle itself: a lookup of
    the handle finds the new descriptor with the base address of its
    mapping, every other handle looks up as before, and the four resources
    of the pin are now held. *)
Theorem pin_registers (omx : rpmsg_omx_instance) (fd : Z)
    (held : list resource) (dma : rpmsg_omx_dma_info) :
  dma_idr omx !! fd = None →
  let r := rpmsg_omx_pin_buffer omx fd held (pin_env_ok dma) in
  r.1.1 = 0
  ∧ (∀ get, rpmsg_omx_dma_find r.1.2 fd get
            = (Some (dma, sgt_pa dma), dma_buf_ref (get fd)))
  ∧ (∀ fd' get, fd' ≠ fd →
       rpmsg_omx_dma_find r.1.2 fd' get = rpmsg_omx_dma_find omx fd' get)
  ∧ r.2 = dma_resources dma ++ held
  ∧ state r.1.2 = state omx ∧ queue r.1.2 = queue omx.
Proof.
  intros Hfd. cbv zeta. rewrite pin_unregistered by done. simpl.
  unfold rpmsg_omx_dma_find. simpl.
  rewrite lookup_insert_eq. repeat split; try done.
  intros fd' get Hne. by rewrite lookup_insert_ne.
Qed.

Lemma pin_registers_witness :
  rpmsg_omx_dma_find
    (rpmsg_omx_pin_buffer (omx_sample OMX_CONNECTED []) 5 []
       (pin_env_ok {| dbuf := 1; attach := 2; sgt := 3; sgt_pa := 4096 |})).1.2
    5 fd_table_sample
  = (Some ({| dbuf := 1; attach := 2; sgt := 3; sgt_pa := 4096 |}, 4096),
     dma_buf_ref (fd_table_sample 5)).
Proof.
  apply (pin_registers (omx_sample OMX_CONNECTED []) 5 []
           {| dbuf := 1; attach := 2; sgt := 3; sgt_pa := 4096 |}).
  reflexivity.
Defined.

Lemma release_cons_ne r x (l : list resource) :
  r ≠ x → release r (x :: l) = x :: release r l.
Proof.
  intros Hne. unfold release at 1. fold release.
  by rewrite bool_decide_eq_false_2.
Qed.

(** Giving back what a pin holds leaves the reference of a lookup where
    it is, even when it is a reference on the same dma-buf. *)
Lemma release_dma_resources dma (got : positive + Z) held :
  (rpmsg_omx_remove_dma_buffer dma
     (dma_buf_ref got ++ dma_resources dma ++ held)).2
  = dma_buf_ref got ++ held.
Proof.
  unfold rpmsg_omx_remove_dma_buffer, dma_resources, dma_buf_ref.
  destruct got as [e | d]; simpl.
  - by rewrite !release_head.
  - rewrite (release_cons_ne (ResMap _ _) (ResBufRef d)) by done.
    rewrite release_head.
    rewrite (release_cons_ne (ResAttach _ _) (ResBufRef d)) by done.
    rewrite release_head.
    destruct (decide (dbuf dma = d)) as [-> | Hne].
    + rewrite release_head.
      rewrite (release_cons_ne ResDmaInfo (ResBufRef d)) by done.
      by rewrite release_head.
    + rewrite (release_cons_ne (ResBufRef (dbuf dma)) (ResBufRef d))
        by congruence.
      rewrite release_head.
      rewrite (release_cons_ne ResDmaInfo (ResBufRef d)) by done.
      by rewrite release_head.
Qed.

Lemma unpin_registered omx fd held get dma :
  dma_idr omx !! fd = Some dma →
  rpmsg_omx_unpin_buffer omx fd held get
  = (0, set_dma_idr (delete fd (dma_idr omx)) omx,
     (rpmsg_omx_remove_dma_buffer dma (dma_buf_ref (get fd) ++ held)).2).
Proof.
  intros Hfd. unfold rpmsg_omx_unpin_buffer, rpmsg_omx_dma_find.
  rewrite Hfd. reflexivity.
Qed.

(** X14.  Pin followed by unpin of the same handle: the unpin returns 0,
    the instance (registry included) is exactly what it was before the
    pin, and the descriptor, the buffer reference, the attachment and the
    mapping that the pin had taken are all given back.  But the unpin
    does not leave the held resources as they were before the pin: its
    lookup calls [dma_buf_get(fd)] and nothing puts the reference this
    takes, so that, whenever [fd] still names the pinned dma-buf, one
    reference on that buffer is held for good. *)
Theorem pin_unpin_round_trip (omx : rpmsg_omx_instance) (fd : Z)
    (held : list resource) (dma : rpmsg_omx_dma_info) (get : fd_table) :
  dma_idr omx !! fd = None →
  let r := rpmsg_omx_pin_buffer omx fd held (pin_env_ok dma) in
  let r' := rpmsg_omx_unpin_buffer r.1.2 fd r.2 get in
  r' = (0, omx, dma_buf_ref (get fd) ++ held)
  ∧ (get fd = inr (dbuf dma) → r'.2 = ResBufRef (dbuf dma) :: held)
  ∧ (∀ e, get fd = inl e → r'.2 = held).
Proof.
  intros Hfd. cbv zeta. rewrite pin_unregistered by done.
  cbn [fst snd].
  rewrite (unpin_registered _ fd _ get dma) by apply lookup_insert_eq.
  rewrite release_dma_resources. cbn [dma_idr set_dma_idr].
  rewrite (delete_insert_id _ _ _ Hfd).
  split; [| split].
  - f_equal. f_equal. by destruct omx.
  - by intros ->.
  - by intros e ->.
Qed.

Lemma pin_unpin_round_trip_witness :
  rpmsg_omx_unpin_buffer omx_pinned 5 held_pinned fd_table_sample
  = (0, omx_sample OMX_CONNECTED [], dma_buf_ref (fd_table_sample 5) ++ []).
Proof.
  apply (pin_unpin_round_trip (omx_sample OMX_CONNECTED []) 5 []
           {| dbuf := 1; attach := 2; sgt := 3; sgt_pa := 4096 |}
           fd_table_sample).
  reflexivity.
Defined.

(** Through the unregister ioctl: after pin and unpin of handle 5 by a
    caller whose descriptor 5 names the dma-buf 1, the registry is empty
    again and one reference on the dma-buf 1 is still held. *)
Example ioctl_unregister_leaves_reference :
  let r := rpmsg_omx_ioctl channel_sample omx_pinned OMX_IOCBUFUNREGISTER 5
             held_pinned ioctl_env_long_name in
  r.1.1.1 = 0
  ∧ dma_idr r.1.1.2 = ∅
  ∧ r.2 = [ResBufRef 1].
Proof. by vm_compute. Qed.

(** X15.  Translation follows the registry.  While a handle is pinned on a
    connection that has not failed, translating it yields the translator's
    image of the base address of its mapping, truncated to 32 bits; once
    the connection has failed the translation fails with -ENXIO; once the
    handle is unpinned it fails with -EIO.  Each of these lookups leaves
    the reference of its [dma_buf_get] behind. *)
Theorem translate_follows_registry (omx : rpmsg_omx_instance) (fd : Z)
    (held : list resource) (dma : rpmsg_omx_dma_info) (tr : translator)
    (get : fd_table) (da : Z) :
  dma_idr omx !! fd = None →
  0 ≤ fd < 2 ^ 31 →
  state omx ≠ OMX_FAIL →
  tr (to_u32 (sgt_pa dma)) = inr da →
  let r := rpmsg_omx_pin_buffer omx fd held (pin_env_ok dma) in
  _rpmsg_omx_buffer_get r.1.2 fd tr get
  = (0, to_u32 da, dma_buf_ref (get fd))
  ∧ _rpmsg_omx_buffer_get (omx_crash r.1.2) fd tr get
    = (- ENXIO, 0, dma_buf_ref (get fd))
  ∧ _rpmsg_omx_buffer_get (rpmsg_omx_unpin_buffer r.1.2 fd r.2 get).1.2 fd
      tr get
    = (- EIO, 0, dma_buf_ref (get fd)).
Proof.
  intros Hfd Hrange Hs Htr. cbv zeta. rewrite pin_unregistered by done.
  unfold _rpmsg_omx_buffer_get, rpmsg_omx_unpin_buffer, rpmsg_omx_dma_find,
    _rpmsg_pa_to_da.
  rewrite to_s32_small by done. simpl.
  rewrite !lookup_insert_eq. simpl.
  rewrite lookup_delete_eq.
  rewrite bool_decide_eq_false_2 by done. by rewrite Htr.
Qed.

Lemma translate_follows_registry_witness :
  _rpmsg_omx_buffer_get omx_pinned 5 (we_pa_to_da write_env_sample)
    fd_table_sample
  = (0, 69632, dma_buf_ref (fd_table_sample 5)).
Proof.
  apply (translate_follows_registry (omx_sample OMX_CONNECTED []) 5 []
           {| dbuf := 1; attach := 2; sgt := 3; sgt_pa := 4096 |}
           (we_pa_to_da write_env_sample) fd_table_sample 69632);
    [reflexivity | by vm_compute | discriminate | reflexivity].
Defined.

(** ** release *)

Lemma store32_head (old rest : list byte) v :
  length old = 4%nat → store32 (old ++ rest) 0 v = bytes_of_u32 v ++ rest.
Proof. intros Hlen. by apply (store32_app [] old rest v 0). Qed.

Lemma store_header (pre tail : list byte) a b c :
  length pre = 12%nat →
  store32 (store32 (store32 (pre ++ tail) 0 a) 4 b) 8 c
  = bytes_of_u32 a ++ bytes_of_u32 b ++ bytes_of_u32 c ++ tail.
Proof.
  intros Hpre.
  assert (pre = take 4 pre ++ take 4 (drop 4 pre) ++ take 4 (drop 8 pre))
    as Hsplit.
  { rewrite <- (take_drop 4 pre) at 1. f_equal.
    rewrite <- (take_drop 4 (drop 4 pre)) at 1. f_equal.
    rewrite drop_drop. symmetry. apply take_ge.
    rewrite length_drop. lia. }
  assert (length (take 4 pre) = 4%nat) as H0
    by (rewrite length_take; lia).
  assert (length (take 4 (drop 4 pre)) = 4%nat) as H1
    by (rewrite length_take, length_drop; lia).
  assert (length (take 4 (drop 8 pre)) = 4%nat) as H2
    by (rewrite length_take, length_drop; lia).
  rewrite Hsplit, <- !app_assoc.
  rewrite (store32_head (take 4 pre)) by done.
  rewrite (store32_app (bytes_of_u32 a) (take 4 (drop 4 pre)) _ b 4)
    by done.
  rewrite (app_assoc (bytes_of_u32 a) (bytes_of_u32 b)).
  rewrite (store32_app (bytes_of_u32 a ++ bytes_of_u32 b)
             (take 4 (drop 8 pre)) tail c 8) by done.
  by rewrite <- app_assoc.
Qed.

Lemma disconnect_msg_frame stack addr :
  disconnect_msg stack addr
  = frame OMX_DISCONNECT sizeof_disc_req (bytes_of_u32 addr).
Proof.
  unfold disconnect_msg.
  set (K := read_bytes stack 0 (Z.to_nat sizeof_kbuf)).
  assert (length K = 512%nat) as HK.
  { unfold K, read_bytes.
    rewrite length_take, length_app, length_drop, length_replicate.
    unfold sizeof_kbuf. lia. }
  assert (K = take 12 K ++ take 4 (drop 12 K) ++ drop 16 K) as Hsplit.
  { rewrite <- (take_drop 12 K) at 1. f_equal.
    rewrite <- (take_drop 4 (drop 12 K)) at 1. f_equal.
    by rewrite drop_drop. }
  rewrite Hsplit.
  rewrite store_header by (rewrite length_take; lia).
  rewrite !app_assoc, <- (app_assoc _ (take 4 (drop 12 K))).
  rewrite (store32_app _ (take 4 (drop 12 K)) (drop 16 K) addr sizeof_hdr)
    by (rewrite ?length_take, ?length_drop; done || lia).
  rewrite app_assoc. unfold frame. rewrite !app_assoc.
  by rewrite take_app_length'.
Qed.

(** X16.  Closing a connection always returns 0, and sends a disconnect
    frame exactly when the connection is Connected and has not failed by the
    time its lock is taken.  The frame goes from the endpoint to the
    service's address and is 16 bytes: type [OMX_DISCONNECT], zero flags,
    length 4 and the connected destination address; it carries nothing of
    the uninitialised stack buffer it is built in.  The service then lists
    the instances it listed before, in the same order, less the one node
    being closed: an instance that merely shares its endpoint address,
    such as a Failed one left from before a recovery, stays listed.  A
    close right after an open gives the list back as it was. *)
Theorem release_disconnect (omxserv : rpmsg_omx_service) (rp : rpmsg_channel)
    (pos : nat) (omx : rpmsg_omx_instance) (held : list resource)
    (env : release_env) :
  let r := rpmsg_omx_release omxserv rp pos omx held env in
  r.1.1.1 = 0
  ∧ r.1.2
    = (if bool_decide (state omx = OMX_CONNECTED)
          && negb (bool_decide
                     (state (async_run omx (rl_between env)) = OMX_FAIL))
       then [{| tx_src := ept omx; tx_dst := rp_dst rp;
                tx_data := frame OMX_DISCONNECT sizeof_disc_req
                             (bytes_of_u32 (dst omx)) |}]
       else [])
  ∧ (∀ j, (j < pos)%nat → omx_list r.1.1.2 !! j = omx_list omxserv !! j)
  ∧ (∀ j, (pos ≤ j)%nat → omx_list r.1.1.2 !! j = omx_list omxserv !! S j)
  ∧ ((pos < length (omx_list omxserv))%nat →
     S (length (omx_list r.1.1.2)) = length (omx_list omxserv))
  ∧ (∀ f_flags oenv opened,
       rpmsg_omx_open omxserv f_flags oenv = Some (0, opened) →
       omx_list (rpmsg_omx_release opened rp 0 omx held env).1.1.2
       = omx_list omxserv)
  ∧ rpdev r.1.1.2 = rpdev omxserv ∧ minor r.1.1.2 = minor omxserv.
Proof.
  cbv zeta. unfold rpmsg_omx_release. simpl.
  split; [done |]. split; [| split; [| split; [| split; [| split]]]];
    [| | | | | done].
  - case_bool_decide; simpl; [| done].
    case_bool_decide; simpl; [done |].
    rewrite disconnect_msg_frame.
    by destruct (async_run_queue (rl_between env) omx) as (_ & -> & _).
  - intros j Hj. by apply list_lookup_delete_lt.
  - intros j Hj. by apply list_lookup_delete_ge.
  - intros Hpos. rewrite length_delete by by apply lookup_lt_is_Some_2. lia.
  - intros f_flags oenv opened Hopen.
    unfold rpmsg_omx_open in Hopen.
    destruct (oe_kzalloc oenv); simpl in Hopen;
      [| injection Hopen as Hret _; by vm_compute in Hret].
    destruct (bool_decide (rpdev omxserv = None) && _);
      [injection Hopen as Hret _; by vm_compute in Hret |].
    destruct (open_wait_loop _ _) as [[ret | ch]|] eqn:Hloop; [| | done].
    + injection Hopen as -> <-.
      exfalso. revert Hloop. generalize (rpdev omxserv).
      induction (oe_waits oenv) as [|w waits IH]; intros rp0 Hloop;
        destruct rp0; simpl in Hloop; try done.
      destruct w; [by vm_compute in Hloop | by eapply IH].
    + destruct (oe_create_ept oenv) as [addr|];
        [| injection Hopen as Hret _; by vm_compute in Hret].
      by injection Hopen as <-.
Qed.

(** After a crash and a recovery a service can list a Failed instance and
    a new one under the same endpoint address: closing the new one leaves
    the Failed one listed. *)
Example release_keeps_stale_instance :
  let stale := omx_crash (omx_new 1024) in
  let omxserv :=
    {| rpdev := Some channel_sample; minor := 0;
       omx_list := [omx_new 1024; stale]; comp := 0 |} in
  omx_list
    (rpmsg_omx_release omxserv channel_sample 0 (omx_new 1024) []
       {| rl_stack := []; rl_between := []; rl_send := KOk |}).1.1.2
  = [stale].
Proof. reflexivity. Qed.

Lemma release_present r (l : list resource) :
  r ∈ l → l ≡ₚ r :: release r l.
Proof.
  induction l as [|x l IH]; intros Hin; [by apply elem_of_nil in Hin |].
  destruct (decide (r = x)) as [<- | Hx].
  - by rewrite release_head.
  - rewrite release_cons_ne by done.
    apply elem_of_cons in Hin as [-> | Hin]; [done |].
    rewrite (IH Hin) at 1. apply Permutation_swap.
Qed.

Lemma release_perm r (l l' : list resource) :
  l ≡ₚ r :: l' → release r l ≡ₚ l'.
Proof.
  intros Hl.
  assert (r ∈ l) as Hin by (rewrite Hl; apply list_elem_of_here).
  apply (Permutation_cons_inv (a := r)).
  by rewrite <- release_present.
Qed.

Lemma remove_dma_buffer_perm dma held rest :
  held ≡ₚ dma_resources dma ++ rest →
  (rpmsg_omx_remove_dma_buffer dma held).2 ≡ₚ rest.
Proof.
  intros Hheld. unfold rpmsg_omx_remove_dma_buffer. simpl.
  by apply release_perm, release_perm, release_perm, release_perm.
Qed.

Lemma rpmsg_omx_idr_unpin_buffer_ret id node held :
  rpmsg_omx_idr_unpin_buffer id node held
  = (None, (rpmsg_omx_remove_dma_buffer node held).2).
Proof. reflexivity. Qed.

Lemma idr_for_each_unpin_perm (idr : gmap Z rpmsg_omx_dma_info) ids :
  ∀ held rest,
    held ≡ₚ mjoin ((λ id, from_option dma_resources [] (idr !! id)) <$> ids)
            ++ rest →
    (idr_for_each_ids (R := Z) rpmsg_omx_idr_unpin_buffer idr ids held).2
    ≡ₚ rest.
Proof.
  induction ids as [|id ids IH]; intros held rest Hheld; [done |].
  rewrite fmap_cons in Hheld. cbn [mjoin list_join] in Hheld.
  cbn [idr_for_each_ids].
  destruct (idr !! id) as [node|] eqn:Hid; cbn [from_option] in Hheld.
  - rewrite rpmsg_omx_idr_unpin_buffer_ret.
    apply IH, remove_dma_buffer_perm. by rewrite Hheld, <- app_assoc.
  - by apply IH.
Qed.

Lemma idr_ids_spec {V} (idr : gmap Z V) :
  NoDup (idr_ids idr) ∧ ∀ id, id ∈ idr_ids idr ↔ is_Some (idr !! id).
Proof.
  unfold idr_ids. split.
  - rewrite merge_sort_Permutation. apply NoDup_elements.
  - intros id. rewrite merge_sort_Permutation, elem_of_elements.
    apply elem_of_dom.
Qed.

(** X17.  Closing a connection unpins every buffer still registered, each
    exactly once: the traversal visits every registered handle and none
    twice, and when what is held consists of the resources of the
    registered buffers plus some others, only the others are still held
    afterwards. *)
Theorem release_unpins_all (omxserv : rpmsg_omx_service) (rp : rpmsg_channel)
    (pos : nat) (omx : rpmsg_omx_instance) (held rest : list resource)
    (env : release_env) :
  held ≡ₚ registry_resources (dma_idr omx) ++ rest →
  (rpmsg_omx_release omxserv rp pos omx held env).2 ≡ₚ rest
  ∧ NoDup (idr_ids (dma_idr omx))
  ∧ ∀ id, id ∈ idr_ids (dma_idr omx) ↔ is_Some (dma_idr omx !! id).
Proof.
  intros Hheld. split; [| apply idr_ids_spec].
  unfold rpmsg_omx_release, idr_for_each. simpl.
  by apply idr_for_each_unpin_perm.
Qed.

Lemma release_unpins_all_witness :
  (rpmsg_omx_release (service_sample (Some channel_sample)) channel_sample
     0 omx_pinned held_pinned
     {| rl_stack := []; rl_between := []; rl_send := KOk |}).2 ≡ₚ [].
Proof.
  apply (release_unpins_all (service_sample (Some channel_sample))
           channel_sample 0 omx_pinned held_pinned []
           {| rl_stack := []; rl_between := []; rl_send := KOk |}).
  by vm_compute.
Defined.

(** ** Failed connections and the transport *)

Lemma rpmsg_omx_release_sent omxserv rp pos omx held env :
  (rpmsg_omx_release omxserv rp pos omx held env).1.2
  = if bool_decide (state omx = OMX_CONNECTED) then
      if negb (bool_decide
                 (state (async_run omx (rl_between env)) = OMX_FAIL))
      then (rpmsg_send_offchannel (ept (async_run omx (rl_between env)))
              (rp_dst rp) (disconnect_msg (rl_stack env) (dst omx))
              (rl_send env)).2
      else []
    else [].
Proof. reflexivity. Qed.

(** X18.  No client call hands a frame to the transport on behalf of a
    Failed connection: connect returns -ENXIO at once, write returns a
    negative errno, close sends no disconnect; and a close of a connection
    that fails between its two state tests sends nothing either. *)
Theorem failed_never_sends (omx omx0 : rpmsg_omx_instance)
    (rp : rpmsg_channel) (omxname : list byte) (cenv : connect_env)
    (ubuf : list byte) (len : Z) (wenv : write_env)
    (omxserv : rpmsg_omx_service) (pos : nat) (held : list resource)
    (renv : release_env) :
  state omx = OMX_FAIL →
  rpmsg_omx_connect rp omx omxname cenv = (- ENXIO, omx, [])
  ∧ (rpmsg_omx_write omx ubuf len wenv).1.2 = []
  ∧ (rpmsg_omx_write omx ubuf len wenv).1.1 < 0
  ∧ (rpmsg_omx_release omxserv rp pos omx held renv).1.2 = []
  ∧ (AsyncCrash ∈ rl_between renv →
     (rpmsg_omx_release omxserv rp pos omx0 held renv).1.2 = []).
Proof.
  intros Hs.
  destruct (write_on_failed omx ubuf len wenv Hs) as [Hw1 Hw2].
  split; [| split; [done | split; [done | split]]].
  - unfold rpmsg_omx_connect. by rewrite Hs.
  - rewrite rpmsg_omx_release_sent, Hs. reflexivity.
  - intros Hcrash. rewrite rpmsg_omx_release_sent.
    case_bool_decide; [| reflexivity].
    rewrite (async_run_crash _ _ Hcrash). reflexivity.
Qed.

Lemma failed_never_sends_witness :
  rpmsg_omx_connect channel_sample (omx_sample OMX_FAIL []) svc_a
    (connect_env_sample [])
  = (- ENXIO, omx_sample OMX_FAIL [], []).
Proof.
  apply (failed_never_sends (omx_sample OMX_FAIL []) omx_connected
           channel_sample svc_a (connect_env_sample []) ten_bytes 10
           write_env_sample (service_sample None) 0 []
           {| rl_stack := []; rl_between := []; rl_send := KOk |}).
  reflexivity.
Defined.

(** ** open *)



(** ** The service registry *)

Lemma idr_first_unused_spec {V} (idr : gmap Z V) n :
  ∀ k (X : gset Z),
    (∀ x, x ∈ dom idr → k ≤ x → x ∈ X) →
    (size X ≤ n)%nat →
    idr !! idr_first_unused n idr k = None
    ∧ k ≤ idr_first_unused n idr k
    ∧ ∀ j, k ≤ j < idr_first_unused n idr k → is_Some (idr !! j).
Proof.
  induction n as [|n IH]; intros k X Hcover Hsize; simpl.
  - split; [| split; [lia | intros; lia]].
    apply not_elem_of_dom. intros Hk.
    assert (X = ∅) as -> by (apply leibniz_equiv, size_empty_iff; lia).
    specialize (Hcover k Hk ltac:(lia)). by apply not_elem_of_empty in Hcover.
  - destruct (idr !! k) as [v|] eqn:Hk; [| split; [done | split; [lia |]];
      intros; lia].
    destruct (IH (k + 1) (X ∖ {[k]})) as (Hfree & Hle & Hbelow).
    + intros x Hx Hle. apply elem_of_difference. split.
      * apply Hcover; [done | lia].
      * rewrite elem_of_singleton. lia.
    + assert (k ∈ X) as HkX.
      { apply Hcover; [| lia]. apply elem_of_dom. by eexists. }
      assert (X = {[k]} ∪ X ∖ {[k]}) as HX.
      { apply set_eq. intros x. rewrite elem_of_union, elem_of_difference,
          elem_of_singleton.
        destruct (decide (x = k)) as [-> |]; intuition. }
      assert ({[k]} ## X ∖ {[k]}) as Hdisj.
      { apply elem_of_disjoint. intros x Hx1 Hx2.
        by apply elem_of_difference in Hx2 as [_ Hx2]. }
      rewrite HX, (size_union _ _ Hdisj), size_singleton in Hsize.
      lia.
    + split; [done |]. split; [lia |].
      intros j Hj. destruct (decide (j = k)) as [-> | Hne]; [by eexists |].
      apply Hbelow. lia.
Qed.

Lemma idr_get_new_spec {V} (idr : gmap Z V) :
  idr !! idr_get_new idr = None
  ∧ 0 ≤ idr_get_new idr
  ∧ ∀ j, 0 ≤ j < idr_get_new idr → is_Some (idr !! j).
Proof.
  unfold idr_get_new.
  apply (idr_first_unused_spec idr (size idr) 0 (dom idr)); [done |].
  by rewrite size_dom.
Qed.

Lemma match_omx_service_ids name (services : gmap Z omx_service_entry) ids :
  match (idr_for_each_ids (_match_omx_service name) services ids ()).1 with
  | Some (id, p) =>
      id ∈ ids ∧ services !! id = Some p
      ∧ cstring (sv_name p) = cstring name
  | None =>
      ∀ id p, id ∈ ids → services !! id = Some p →
              cstring (sv_name p) ≠ cstring name
  end.
Proof.
  induction ids as [|id ids IH]; cbn [idr_for_each_ids].
  - simpl. intros id p Hin. by apply elem_of_nil in Hin.
  - destruct (services !! id) as [q|] eqn:Hid.
    + unfold _match_omx_service at 1.
      case_bool_decide as Hname; cbn [fst].
      * split; [apply list_elem_of_here | done].
      * destruct (idr_for_each_ids _ _ ids ()).1 as [[id' p']|].
        -- destruct IH as (Hin & Hp & Hn).
           split; [by apply list_elem_of_further | done].
        -- intros id' p' [-> | Hin]%elem_of_cons Hp'; [congruence |].
           by eapply IH.
    + destruct (idr_for_each_ids _ _ ids ()).1 as [[id' p']|].
      * destruct IH as (Hin & Hp & Hn).
        split; [by apply list_elem_of_further | done].
      * intros id' p' [-> | Hin]%elem_of_cons Hp'; [congruence |].
        by eapply IH.
Qed.

Lemma match_omx_service_spec name (services : gmap Z omx_service_entry) :
  match (idr_for_each (_match_omx_service name) services ()).1 with
  | Some (id, p) =>
      services !! id = Some p ∧ cstring (sv_name p) = cstring name
  | None =>
      ∀ id p, services !! id = Some p → cstring (sv_name p) ≠ cstring name
  end.
Proof.
  unfold idr_for_each.
  pose proof (match_omx_service_ids name services (idr_ids services)) as H.
  destruct (idr_for_each_ids _ _ _ ()).1 as [[id p]|].
  - by destruct H as (_ & Hp & Hn).
  - intros id p Hp. apply (H id p); [| done].
    apply idr_ids_spec. by eexists.
Qed.

Lemma rpmsg_omx_probe_found services rp name env id p :
  (idr_for_each (_match_omx_service name) services ()).1 = Some (id, p) →
  rpmsg_omx_probe services rp name env
  = (0, <[id := {| sv_name := sv_name p;
                   sv_serv := serv_up rp (sv_serv p) |}]> services).
Proof. intros H. unfold rpmsg_omx_probe. by rewrite H. Qed.

Lemma rpmsg_omx_probe_match services rp name env id p :
  services !! id = Some p →
  cstring (sv_name p) = cstring name →
  (∀ id' p', services !! id' = Some p' →
             cstring (sv_name p') = cstring name → id' = id) →
  rpmsg_omx_probe services rp name env
  = (0, <[id := {| sv_name := sv_name p;
                   sv_serv := serv_up rp (sv_serv p) |}]> services).
Proof.
  intros Hp Hname Huniq.
  pose proof (match_omx_service_spec name services) as Hm.
  destruct (idr_for_each _ services ()).1 as [[id' p']|] eqn:Hfound.
  - destruct Hm as [Hp' Hname'].
    assert (id' = id) as -> by by eapply Huniq.
    assert (p' = p) as -> by congruence.
    by apply rpmsg_omx_probe_found.
  - by destruct (Hm id p Hp).
Qed.

(** X20.  Re-attachment.  When a service of the channel's name is already
    registered, probe never creates a second one and cannot fail: it binds
    the new channel to the existing service, under the same minor and with
    the same live instances in the same states, and adds [UINT_MAX/2] to
    the link-ready counter.  That counter is an [unsigned int]: the
    addition raises it, so that link-ready is signalled, as long as it was
    at most 2^31 (after a crash it is 0), and wraps otherwise. *)
Theorem probe_reattaches (services : gmap Z omx_service_entry)
    (rp : rpmsg_channel) (name : list byte) (env : probe_env) (id : Z)
    (p : omx_service_entry) :
  services !! id = Some p →
  cstring (sv_name p) = cstring name →
  (∀ id' p', services !! id' = Some p' →
             cstring (sv_name p') = cstring name → id' = id) →
  let r := rpmsg_omx_probe services rp name env in
  r.1 = 0
  ∧ dom r.2 = dom services
  ∧ (∀ id', id' ≠ id → r.2 !! id' = services !! id')
  ∧ ∃ omxserv, r.2 !! id = Some {| sv_name := sv_name p; sv_serv := omxserv |}
      ∧ rpdev omxserv = Some rp
      ∧ minor omxserv = minor (sv_serv p)
      ∧ omx_list omxserv = omx_list (sv_serv p)
      ∧ comp omxserv = to_u32 (comp (sv_serv p) + UINT_MAX / 2)
      ∧ (0 ≤ comp (sv_serv p) ≤ UINT_MAX / 2 + 1 →
         comp (sv_serv p) < comp omxserv)
      ∧ (UINT_MAX / 2 + 1 < comp (sv_serv p) ≤ UINT_MAX →
         comp omxserv < comp (sv_serv p)).
Proof.
  intros Hp Hname Huniq. cbv zeta.
  rewrite (rpmsg_omx_probe_match _ _ _ _ id p) by done.
  cbn [fst snd]. split; [done |]. split; [| split].
  - rewrite dom_insert_L.
    assert (id ∈ dom services) by (apply elem_of_dom; by eexists).
    apply set_eq. intros x. rewrite elem_of_union, elem_of_singleton.
    intuition congruence.
  - intros id' Hne. by rewrite lookup_insert_ne.
  - eexists. rewrite lookup_insert_eq. split; [done |].
    simpl. unfold to_u32, UINT_MAX.
    change ((2 ^ 32 - 1) `div` 2) with 2147483647.
    change (2 ^ 32) with 4294967296.
    repeat split.
    + intros Hc. rewrite Z.mod_small by lia. lia.
    + intros Hc.
      replace (comp (sv_serv p) + 2147483647)
        with (comp (sv_serv p) - 2147483649 + 1 * 4294967296) by lia.
      rewrite Z.mod_add by done. rewrite Z.mod_small by lia. lia.
Qed.

(** Three probes of the same name with no crash in between: the third
    addition wraps the link-ready counter, which goes down from
    4294967294 to 2147483645. *)
Example probe_thrice_wraps :
  let env := {| pb_idr_pre_get := true; pb_kzalloc := true;
                pb_idr_get_new := KOk; pb_cdev_add := KOk;
                pb_device_create := KOk |} in
  let r1 := rpmsg_omx_probe ∅ channel_sample svc_a env in
  let r2 := rpmsg_omx_probe r1.2 channel_sample svc_a env in
  let r3 := rpmsg_omx_probe r2.2 channel_sample svc_a env in
  (comp ∘ sv_serv <$> r1.2 !! 0) = Some 2147483647
  ∧ (comp ∘ sv_serv <$> r2.2 !! 0) = Some 4294967294
  ∧ (comp ∘ sv_serv <$> r3.2 !! 0) = Some 2147483645.
Proof. by vm_compute. Qed.

Lemma probe_reattaches_witness :
  (rpmsg_omx_probe
     {[ 0 := {| sv_name := svc_a; sv_serv := service_sample None |} ]}
     channel_sample svc_a
     {| pb_idr_pre_get := false; pb_kzalloc := false;
        pb_idr_get_new := KOk; pb_cdev_add := KOk;
        pb_device_create := KOk |}).1 = 0.
Proof.
  apply (probe_reattaches
           {[ 0 := {| sv_name := svc_a; sv_serv := service_sample None |} ]}
           channel_sample svc_a
           {| pb_idr_pre_get := false; pb_kzalloc := false;
              pb_idr_get_new := KOk; pb_cdev_add := KOk;
              pb_device_create := KOk |} 0
           {| sv_name := svc_a; sv_serv := service_sample None |}).
  - reflexivity.
  - reflexivity.
  - intros id' p' Hp' _.
    apply lookup_singleton_Some in Hp' as [<- _]. reflexivity.
Defined.

Lemma rpmsg_omx_probe_fresh services rp name env :
  (∀ id p, services !! id = Some p → cstring (sv_name p) ≠ cstring name) →
  let minor := idr_get_new services in
  let r := rpmsg_omx_probe services rp name env in
  (r.1 = 0
   ∧ r.2 = <[minor := {| sv_name := name;
                          sv_serv := {| rpdev := Some rp; minor := minor;
                                        omx_list := [];
                                        comp := UINT_MAX / 2 |} |}]> services)
  ∨ (r.1 < 0 ∧ r.2 = services).
Proof.
  intros Hnone. cbv zeta.
  pose proof (match_omx_service_spec name services) as Hm.
  destruct (idr_get_new_spec services) as (Hfree & _ & _).
  unfold rpmsg_omx_probe.
  destruct (idr_for_each _ services ()).1 as [[id p]|].
  { destruct Hm as [Hp Hn]. by destruct (Hnone id p Hp). }
  destruct (pb_idr_pre_get env); cbn [negb]; [| by right].
  destruct (pb_kzalloc env); cbn [negb]; [| by right].
  destruct (pb_idr_get_new env) as [| e];
    [| right; split; [cbn [fst]; lia | done]].
  destruct (pb_cdev_add env) as [| e].
  2:{ right. split; [cbn [fst]; lia |]. cbn [snd].
      by apply delete_insert_id. }
  destruct (pb_device_create env) as [| e].
  2:{ right. split; [cbn [fst]; lia |]. cbn [snd].
      by apply delete_insert_id. }
  left. split; [done |]. cbn [snd]. by rewrite insert_insert_eq.
Qed.

(** X21.  First attachment.  When no registered service bears the
    channel's name, probe either fails with a negative errno and leaves
    the registry exactly as it was, whichever step failed, or succeeds and
    registers one new service, bound to the channel, without instances and
    with link-ready signalled, under the smallest minor not in use. *)
Theorem probe_creates (services : gmap Z omx_service_entry)
    (rp : rpmsg_channel) (name : list byte) (env : probe_env) :
  (∀ id p, services !! id = Some p → cstring (sv_name p) ≠ cstring name) →
  let minor := idr_get_new services in
  let r := rpmsg_omx_probe services rp name env in
  services !! minor = None
  ∧ 0 ≤ minor
  ∧ (∀ j, 0 ≤ j < minor → is_Some (services !! j))
  ∧ ((r.1 = 0
      ∧ r.2 = <[minor := {| sv_name := name;
                             sv_serv := {| rpdev := Some rp; minor := minor;
                                           omx_list := [];
                                           comp := UINT_MAX / 2 |} |}]>
                services)
     ∨ (r.1 < 0 ∧ r.2 = services)).
Proof.
  intros Hnone. cbv zeta.
  destruct (idr_get_new_spec services) as (Hfree & Hpos & Hbelow).
  split; [done |]. split; [done |]. split; [done |].
  by apply rpmsg_omx_probe_fresh.
Qed.

Lemma probe_creates_witness :
  (∅ : gmap Z omx_service_entry) !! idr_get_new (∅ : gmap Z omx_service_entry)
  = None.
Proof.
  apply (probe_creates ∅ channel_sample svc_a
           {| pb_idr_pre_get := true; pb_kzalloc := true;
              pb_idr_get_new := KOk; pb_cdev_add := KOk;
              pb_device_create := KOk |}).
  intros id p Hp. by rewrite lookup_empty in Hp.
Defined.

Lemma open_wait_loop_bound ch waits :
  open_wait_loop (Some ch) waits = Some (inr ch).
Proof. by destruct waits. Qed.

(** X22.  Crash and recovery.  After the remote processor crashes the
    service stays registered under its minor with every live instance
    Failed and no channel, so that a non-blocking open is refused with
    -EBUSY; when the channel comes back, probe re-binds the same service
    without clearing anything: the instances that were live at the crash
    are still listed and still Failed, and a new open succeeds and adds a
    fresh Unconnected instance in front of them. *)
Theorem crash_recovery (services : gmap Z omx_service_entry) (id : Z)
    (p : omx_service_entry) (rp : rpmsg_channel) (name : list byte)
    (env : probe_env) (f_flags : Z) (oenv : open_env) (addr : Z) :
  services !! id = Some p →
  cstring (sv_name p) = cstring name →
  (∀ id' p', services !! id' = Some p' →
             cstring (sv_name p') = cstring name → id' = id) →
  oe_kzalloc oenv = true →
  oe_create_ept oenv = Some addr →
  let failed := omx_crash <$> omx_list (sv_serv p) in
  let crashed := rpmsg_omx_remove_entry services id true in
  let r := rpmsg_omx_probe crashed rp name env in
  Forall (λ omx, state omx = OMX_FAIL) failed
  ∧ (∃ down, crashed !! id = Some {| sv_name := sv_name p; sv_serv := down |}
       ∧ omx_list down = failed
       ∧ rpmsg_omx_open down O_NONBLOCK oenv = Some (- EBUSY, down))
  ∧ r.1 = 0
  ∧ (∀ id', id' ≠ id → r.2 !! id' = services !! id')
  ∧ ∃ up, r.2 !! id = Some {| sv_name := sv_name p; sv_serv := up |}
      ∧ minor up = minor (sv_serv p)
      ∧ omx_list up = failed
      ∧ rpmsg_omx_open up f_flags oenv
        = Some (0, {| rpdev := Some rp; minor := minor up;
                      omx_list := omx_new addr :: failed;
                      comp := comp up |}).
Proof.
  intros Hp Hname Huniq Hk Hept. cbv zeta.
  set (down := {| rpdev := None; minor := minor (sv_serv p);
                  omx_list := omx_crash <$> omx_list (sv_serv p);
                  comp := 0 |}).
  assert (rpmsg_omx_remove_entry services id true
          = <[id := {| sv_name := sv_name p; sv_serv := down |}]> services)
    as Hcrash.
  { unfold rpmsg_omx_remove_entry. by rewrite Hp. }
  rewrite Hcrash.
  rewrite (rpmsg_omx_probe_match _ rp name env id
             {| sv_name := sv_name p; sv_serv := down |}).
  2:{ apply lookup_insert_eq. }
  2:{ done. }
  2:{ intros id' p' Hp' Hn'. destruct (decide (id' = id)) as [-> | Hne];
        [done |].
      rewrite lookup_insert_ne in Hp' by done. by eapply Huniq. }
  cbn [fst snd sv_name sv_serv].
  split; [| split; [| split; [done | split]]].
  - apply Forall_fmap, Forall_forall. by intros omx _.
  - exists down. rewrite lookup_insert_eq. split; [done |]. split; [done |].
    unfold rpmsg_omx_open. by rewrite Hk.
  - intros id' Hne. by rewrite insert_insert_eq, lookup_insert_ne.
  - exists (serv_up rp down).
    rewrite insert_insert_eq, lookup_insert_eq.
    split; [done |]. split; [done |]. split; [done |].
    unfold rpmsg_omx_open. rewrite Hk. simpl.
    by rewrite Hept, open_wait_loop_bound.
Qed.

Lemma crash_recovery_witness :
  (rpmsg_omx_probe
     (rpmsg_omx_remove_entry
        {[ 0 := {| sv_name := svc_a;
                   sv_serv := {| rpdev := Some channel_sample; minor := 0;
                                 omx_list := [omx_connected];
                                 comp := 1 |} |} ]} 0 true)
     channel_sample svc_a
     {| pb_idr_pre_get := true; pb_kzalloc := true; pb_idr_get_new := KOk;
        pb_cdev_add := KOk; pb_device_create := KOk |}).1 = 0.
Proof.
  apply (crash_recovery
           {[ 0 := {| sv_name := svc_a;
                      sv_serv := {| rpdev := Some channel_sample; minor := 0;
                                    omx_list := [omx_connected];
                                    comp := 1 |} |} ]} 0
           {| sv_name := svc_a;
              sv_serv := {| rpdev := Some channel_sample; minor := 0;
                            omx_list := [omx_connected]; comp := 1 |} |}
           channel_sample svc_a
           {| pb_idr_pre_get := true; pb_kzalloc := true;
              pb_idr_get_new := KOk; pb_cdev_add := KOk;
              pb_device_create := KOk |} 0 open_env_sample 1024).
  - reflexivity.
  - reflexivity.
  - intros id' p' Hp' _.
    apply lookup_singleton_Some in Hp' as [<- _]. reflexivity.
  - reflexivity.
  - reflexivity.
Defined.

(** X23.  A clean removal undoes a first attachment: once probe has
    registered a new service, removing it while the remote processor has
    not crashed takes it out of the registry, which is then exactly what
    it was before the probe; the minor is free again. *)
Theorem probe_remove_round_trip (services : gmap Z omx_service_entry)
    (rp : rpmsg_channel) (name : list byte) (env : probe_env) :
  (∀ id p, services !! id = Some p → cstring (sv_name p) ≠ cstring name) →
  let r := rpmsg_omx_probe services rp name env in
  r.1 = 0 →
  is_Some (r.2 !! idr_get_new services)
  ∧ rpmsg_omx_remove_entry r.2 (idr_get_new services) false = services.
Proof.
  intros Hnone r Hok. subst r.
  destruct (idr_get_new_spec services) as (Hfree & _ & _).
  destruct (rpmsg_omx_probe_fresh services rp name env Hnone)
    as [[_ Hr] | [Hneg _]]; [| lia].
  rewrite Hr. rewrite lookup_insert_eq. split; [by eexists |].
  unfold rpmsg_omx_remove_entry. rewrite lookup_insert_eq.
  cbn [sv_serv rpmsg_omx_remove negb minor].
  by apply delete_insert_id.
Qed.

Lemma probe_remove_round_trip_witness :
  rpmsg_omx_remove_entry
    (rpmsg_omx_probe ∅ channel_sample svc_a
       {| pb_idr_pre_get := true; pb_kzalloc := true; pb_idr_get_new := KOk;
          pb_cdev_add := KOk; pb_device_create := KOk |}).2
    (idr_get_new (∅ : gmap Z omx_service_entry)) false
  = ∅.
Proof.
  apply (probe_remove_round_trip ∅ channel_sample svc_a
           {| pb_idr_pre_get := true; pb_kzalloc := true;
              pb_idr_get_new := KOk; pb_cdev_add := KOk;
              pb_device_create := KOk |}).
  - intros id p Hp. by rewrite lookup_empty in Hp.
  - reflexivity.
Defined.
